(** * Stream framing of package irc (stream.go)

    A shallow embedding of [Conn], [Decoder] and [Encoder] together with
    the two collaborators the Go code relies on: the transport behind
    [io.ReadWriteCloser] and the buffered reader of package [bufio].

    Conventions.
    - A Go [[]byte] and a Go [string] are both [list byte].
    - A Go [error] value is an element of [error]; [nil] is [None].
    - A pointer to a transport is a location in the [store] of a [World];
      two fields that hold the same location alias the same transport.
    - A call that never returns is [Block]; a nil dereference is [Panic]. *)

From Stdlib Require Import Strings.Byte Lia.
From stdpp Require Import base list strings.

Local Open Scope list_scope.

(** ** Bytes and errors *)

(** [const delim byte = '\n'] *)
Definition delim : byte := x0a.

Inductive error : Type :=
| EOF                      (* io.EOF *)
| ErrClosed                (* use of a closed transport *)
| ErrShortWrite            (* the transport stopped accepting bytes *)
| ErrNoProgress            (* io.ErrNoProgress, raised by bufio *)
| ErrDial (reason : string)  (* net.Dial failed *)
| ErrIO (code : nat).      (* any other transport failure *)

Inductive outcome (A : Type) : Type :=
| Ret (a : A)
| Block
| Panic.
Arguments Ret {A} a.
Arguments Block {A}.
Arguments Panic {A}.

(** ** The transport

    The read side is a script: the answers the next [Read] calls will
    give, each a chunk of bytes and the error returned with it.  When the
    script is used up the transport answers [eos] forever, or blocks when
    [eos] is [None].  The write side records the payload of every [Write]
    call and the bytes it accepted; [room] bounds how many more bytes are
    accepted.  [closes] counts the [Close] calls received. *)

Record Transport : Type := mkTransport {
  incoming : list (list byte * option error);
  eos : option error;
  outgoing : list byte;
  writes : list (list byte);
  room : option nat;
  closes : nat
}.

Definition set_incoming (t : Transport) (i : list (list byte * option error)) : Transport :=
  mkTransport i (eos t) (outgoing t) (writes t) (room t) (closes t).

Definition closed (t : Transport) : bool := 0 <? closes t.

(** [Read(p)] with [len(p) = cap]: at most [cap] bytes of the next chunk;
    the error of the chunk is delivered with its last bytes. *)
Definition tread (t : Transport) (cap : nat)
  : option (list byte * option error * Transport) :=
  if closed t then Some ([], Some ErrClosed, t)
  else match incoming t with
       | [] => match eos t with
               | Some e => Some ([], Some e, t)
               | None => None
               end
       | (bs, e) :: rest =>
           if length bs <=? cap
           then Some (bs, e, set_incoming t rest)
           else Some (firstn cap bs, None, set_incoming t ((skipn cap bs, e) :: rest))
       end.

(** One byte onto the wire, when there is room for it. *)
Definition tput (t : Transport) (x : byte) : option Transport :=
  match room t with
  | Some 0 => None
  | Some (S k) =>
      Some (mkTransport (incoming t) (eos t) (outgoing t ++ [x]) (writes t) (Some k) (closes t))
  | None =>
      Some (mkTransport (incoming t) (eos t) (outgoing t ++ [x]) (writes t) None (closes t))
  end.

(** The transport takes the bytes of a payload one after the other and
    stops at the first one it cannot take. *)
Fixpoint tsend (t : Transport) (p : list byte) (n : nat) : nat * option error * Transport :=
  match p with
  | [] => (n, None, t)
  | x :: q =>
      match tput t x with
      | Some t' => tsend t' q (S n)
      | None => (n, Some ErrShortWrite, t)
      end
  end.

(** Entering [Write(p)]: the call is recorded. *)
Definition tenter (t : Transport) (p : list byte) : Transport :=
  mkTransport (incoming t) (eos t) (outgoing t) (writes t ++ [p]) (room t) (closes t).

Definition twrite (t : Transport) (p : list byte) : nat * option error * Transport :=
  let t := tenter t p in
  if closed t then (0, Some ErrClosed, t) else tsend t p 0.

Definition tclose (t : Transport) : option error * Transport :=
  (if closed t then Some ErrClosed else None,
   mkTransport (incoming t) (eos t) (outgoing t) (writes t) (room t) (S (closes t))).

(** ** The world: the transports that exist and the network *)

Definition loc := nat.

Record World : Type := mkWorld {
  store : list Transport;
  network : string -> error + Transport;
  dialed : list string
}.

Definition set_store (w : World) (s : list Transport) : World :=
  mkWorld s (network w) (dialed w).

Definition put_transport (w : World) (l : loc) (t : Transport) : World :=
  set_store w (<[l := t]> (store w)).

(** [net.Dial("tcp", addr)]: one attempt; a fresh transport on success. *)
Definition netDial (addr : string) (w : World) : (error + loc) * World :=
  match network w addr with
  | inl e => (inl e, mkWorld (store w) (network w) (dialed w ++ [addr]))
  | inr t => (inr (length (store w)),
              mkWorld (store w ++ [t]) (network w) (dialed w ++ [addr]))
  end.

(** ** bufio.Reader

    The buffered reader of Go's package [bufio], as far as [ReadString]
    uses it: a buffer of [defaultBufSize] bytes filled by [fill], and the
    loop that [ReadString] runs through [collectFragments] and
    [ReadSlice]. *)

Definition defaultBufSize : nat := 4096.
Definition maxConsecutiveEmptyReads : nat := 100.

(** [buf] is the unread part [b.buf[b.r:b.w]] of the buffer, [rerr] the
    error a read left pending, [rd] the transport read from. *)
Record Reader : Type := mkReader {
  rd : loc;
  buf : list byte;
  rerr : option error
}.

(** [bufio.NewReader(rd)] *)
Definition NewReader (r : loc) : Reader := mkReader r [] None.

(** [bytes.IndexByte]; Go's [-1] is [None]. *)
Fixpoint IndexByte (s : list byte) (c : byte) : option nat :=
  match s with
  | [] => None
  | x :: s' => if Byte.eqb x c then Some 0 else option_map S (IndexByte s' c)
  end.

(** [b.fill()]: reads new data into the free part of the buffer, trying
    again while a read returns nothing and no error. *)
Fixpoint fill_loop (i : nat) (b : Reader) (t : Transport) : option (Reader * Transport) :=
  match i with
  | 0 => Some (mkReader (rd b) (buf b) (Some ErrNoProgress), t)
  | S i' =>
      match tread t (defaultBufSize - length (buf b)) with
      | None => None
      | Some (bs, e, t') =>
          let b' := mkReader (rd b) (buf b ++ bs) (rerr b) in
          match e with
          | Some _ => Some (mkReader (rd b') (buf b') e, t')
          | None => if 0 <? length bs then Some (b', t') else fill_loop i' b' t'
          end
      end
  end.

Definition fill (b : Reader) (t : Transport) : option (Reader * Transport) :=
  fill_loop maxConsecutiveEmptyReads b t.

Inductive read_result : Type :=
| RLine (s : list byte) (e : option error) (b : Reader) (t : Transport)
| RBlock.

(** The loop of [ReadString]: [acc] holds the full buffers collected so
    far.  Each round looks for the delimiter in the buffer, then for a
    pending error, then empties a full buffer into [acc], then fills. *)
Fixpoint read_loop (fuel : nat) (acc : list byte) (b : Reader) (t : Transport)
  : option read_result :=
  match fuel with
  | 0 => None
  | S fuel' =>
      match IndexByte (buf b) delim with
      | Some i =>
          Some (RLine (acc ++ firstn (S i) (buf b)) None
                      (mkReader (rd b) (skipn (S i) (buf b)) (rerr b)) t)
      | None =>
          match rerr b with
          | Some e => Some (RLine (acc ++ buf b) (Some e) (mkReader (rd b) [] None) t)
          | None =>
              if defaultBufSize <=? length (buf b)
              then read_loop fuel' (acc ++ buf b) (mkReader (rd b) [] None) t
              else match fill b t with
                   | None => Some RBlock
                   | Some (b', t') => read_loop fuel' acc b' t'
                   end
          end
      end
  end.

(** The rounds [ReadString] can need: every round that does not return
    uses up a chunk, or part of one, or leaves an error pending. *)
Fixpoint weight (i : list (list byte * option error)) : nat :=
  match i with
  | [] => 0
  | (bs, _) :: rest => S (length bs) + weight rest
  end.

Definition rounds (t : Transport) : nat := 2 * weight (incoming t) + 3.

(** The rounds a reader in a given state can still need. *)
Definition pending_rounds (b : Reader) (t : Transport) : nat :=
  2 * weight (incoming t)
  + (if defaultBufSize <=? length (buf b) then 1 else 0)
  + (match rerr b with Some _ => 0 | None => 1 end).

(** [b.ReadString(delim)] *)
Definition ReadString (b : Reader) (t : Transport) : read_result :=
  match read_loop (rounds t) [] b t with
  | Some r => r
  | None => RBlock
  end.

(** ** The message codec

    [Message], [ParseMessage] and [Message.Bytes] belong to the message
    half of the package; the stream layer only calls them. *)

Class Codec : Type := mkCodec {
  Message : Type;
  ParseMessage : list byte -> Message;
  Bytes : Message -> list byte
}.

(** The codec whose messages are the raw lines themselves. *)
Definition rawCodec : Codec := mkCodec (list byte) (fun s => s) (fun m => m).

(** ** Decoder, Encoder and Conn *)

(** [type Decoder struct { reader *bufio.Reader; line string; mu sync.Mutex }] *)
Record Decoder : Type := mkDecoder {
  reader : Reader;
  line : list byte;
  dmu : bool
}.

(** [type Encoder struct { writer io.Writer; mu sync.Mutex }] *)
Record Encoder : Type := mkEncoder {
  writer : loc;
  emu : bool
}.

(** [type Conn struct { Encoder; Decoder; conn io.ReadWriteCloser }] *)
Record Conn : Type := mkConn {
  encoder : Encoder;
  decoder : Decoder;
  conn : loc
}.

(** [func NewDecoder(r io.Reader) *Decoder] *)
Definition NewDecoder (r : loc) : Decoder :=
  mkDecoder (NewReader r) [] false.

(** [func NewEncoder(w io.Writer) *Encoder] *)
Definition NewEncoder (w : loc) : Encoder :=
  mkEncoder w false.

(** [func NewConn(rwc io.ReadWriteCloser) *Conn] *)
Definition NewConn (rwc : loc) : Conn :=
  mkConn (mkEncoder rwc false)
         (mkDecoder (NewReader rwc) [] false)
         rwc.

(** [func Dial(addr string)], returning a [Conn] pointer and an [error] *)
Definition Dial (addr : string) (w : World) : (option Conn * option error) * World :=
  let '(r, w) := netDial addr w in
  match r with
  | inl err => ((None, Some err), w)
  | inr c => ((Some (NewConn c), None), w)
  end.

(** [func (c *Conn) Close() error] *)
Definition Close (c : Conn) (w : World) : outcome (option error * World) :=
  match store w !! conn c with
  | None => Panic
  | Some t => let '(err, t) := tclose t in Ret (err, put_transport w (conn c) t)
  end.

(** [func (dec *Decoder) Decode() (m *Message, err error)] *)
Definition Decode `{Codec} (dec : Decoder) (w : World)
  : outcome ((option Message * option error) * Decoder * World) :=
  (* dec.mu.Lock() *)
  if dmu dec then Block else
  let dec := mkDecoder (reader dec) (line dec) true in
  (* dec.line, err = dec.reader.ReadString(delim) *)
  match store w !! rd (reader dec) with
  | None => Panic
  | Some t =>
      match ReadString (reader dec) t with
      | RBlock => Block
      | RLine s err r t =>
          let dec := mkDecoder r s (dmu dec) in
          let w := put_transport w (rd r) t in
          (* dec.mu.Unlock() *)
          let dec := mkDecoder (reader dec) (line dec) false in
          match err with
          | Some e => Ret ((None, Some e), dec, w)
          | None => Ret ((Some (ParseMessage (line dec)), None), dec, w)
          end
      end
  end.

(** [func (enc *Encoder) Write(p []byte) (n int, err error)] *)
Definition Write (enc : Encoder) (p : list byte) (w : World)
  : outcome ((nat * option error) * Encoder * World) :=
  (* enc.mu.Lock() *)
  if emu enc then Block else
  let enc := mkEncoder (writer enc) true in
  (* n, err = enc.writer.Write(p) *)
  match store w !! writer enc with
  | None => Panic
  | Some t =>
      let '(n, err, t) := twrite t p in
      let w := put_transport w (writer enc) t in
      (* enc.mu.Unlock() *)
      let enc := mkEncoder (writer enc) false in
      Ret ((n, err), enc, w)
  end.

(** [func (enc *Encoder) Encode(m *Message) (err error)] *)
Definition Encode `{Codec} (enc : Encoder) (m : Message) (w : World)
  : outcome (option error * Encoder * World) :=
  (* _, err = enc.Write(m.Bytes()) *)
  match Write enc (Bytes m) w with
  | Ret ((_, err), enc, w) => Ret (err, enc, w)
  | Block => Block
  | Panic => Panic
  end.

(** ** Calls on a Conn

    [Conn] embeds [Encoder] and [Decoder], so their methods are methods
    of the connection. *)

Inductive call `{Codec} : Type :=
| CallDecode
| CallEncode (m : Message)
| CallWrite (p : list byte)
| CallClose.

Definition do_call `{Codec} (k : call) (c : Conn) (w : World) : outcome (Conn * World) :=
  match k with
  | CallDecode =>
      match Decode (decoder c) w with
      | Ret (_, d, w) => Ret (mkConn (encoder c) d (conn c), w)
      | Block => Block
      | Panic => Panic
      end
  | CallEncode m =>
      match Encode (encoder c) m w with
      | Ret (_, e, w) => Ret (mkConn e (decoder c) (conn c), w)
      | Block => Block
      | Panic => Panic
      end
  | CallWrite p =>
      match Write (encoder c) p w with
      | Ret (_, e, w) => Ret (mkConn e (decoder c) (conn c), w)
      | Block => Block
      | Panic => Panic
      end
  | CallClose =>
      match Close c w with
      | Ret (_, w) => Ret (c, w)
      | Block => Block
      | Panic => Panic
      end
  end.

Fixpoint do_calls `{Codec} (ks : list call) (c : Conn) (w : World) : outcome (Conn * World) :=
  match ks with
  | [] => Ret (c, w)
  | k :: ks' =>
      match do_call k c w with
      | Ret (c, w) => do_calls ks' c w
      | Block => Block
      | Panic => Panic
      end
  end.

Definition is_close `{Codec} (k : call) : bool :=
  match k with
  | CallClose => true
  | _ => false
  end.

(** How often [Close] is called in a sequence of calls. *)
Definition closes_in `{Codec} (ks : list call) : nat :=
  length (List.filter is_close ks).

(** The transport's close operation has been invoked this many times. *)
Definition close_count (w : World) (l : loc) : nat :=
  match store w !! l with
  | Some t => closes t
  | None => 0
  end.

Inductive conn_state : Type := OPEN | CLOSED.

(** A connection keeps no state of its own: it is closed when its
    transport is. *)
Definition state_of (c : Conn) (w : World) : conn_state :=
  if 0 <? close_count w (conn c) then CLOSED else OPEN.

(** [n] calls to [Decode], one after the other. *)
Fixpoint decode_n `{Codec} (n : nat) (dec : Decoder) (w : World)
  : outcome (list (option Message * option error) * Decoder * World) :=
  match n with
  | 0 => Ret ([], dec, w)
  | S n' =>
      match Decode dec w with
      | Ret (r, dec, w) =>
          match decode_n n' dec w with
          | Ret (rs, dec, w) => Ret (r :: rs, dec, w)
          | Block => Block
          | Panic => Panic
          end
      | Block => Block
      | Panic => Panic
      end
  end.

(** ** Example data *)

Definition bytes_of (s : string) : list byte := String.list_byte_of_string s.

(** A text line with its terminating newline. *)
Definition ln (s : string) : list byte := bytes_of s ++ [delim].

(** An open transport that will deliver [chunks] and then stay silent. *)
Definition pipe (chunks : list (list byte * option error)) : Transport :=
  mkTransport chunks None [] [] None 0.

(** A transport that has been closed once. *)
Definition closed_pipe : Transport := mkTransport [] None [] [] None 1.

(** A server that answers on one address only. *)
Definition one_host (host : string) (t : Transport) : string -> error + Transport :=
  fun a => if String.eqb a host then inr t else inl (ErrDial "no route to host").

Definition no_network : string -> error + Transport :=
  fun _ => inl (ErrDial "unreachable").

Definition world_of (ts : list Transport) : World := mkWorld ts no_network [].

(** Two frames and the start of a third, cut into chunks that do not
    follow the frames; the stream ends after the last chunk. *)
Definition chat : Transport :=
  pipe [(bytes_of "PING :ser", None);
        (bytes_of "ver" ++ [delim] ++ ln "NICK a" ++ bytes_of "US", Some EOF)].

(** A stream that ends in the middle of its first line. *)
Definition cut_short : Transport := pipe [(bytes_of "PING :ser", Some EOF)].

(** Two frames delivered in one chunk. *)
Definition two_nicks : Transport := pipe [(ln "NICK a" ++ ln "NICK b", None)].

(** Two goroutines in [Decode] on one decoder: the first reads its line
    and unlocks, then the second does, then both return. *)
Definition racy_schedule : list nat := [0; 0; 0; 1; 1; 1; 0; 1].


Definition writers_payloads : list (list byte) := [ln "PING"; ln "PONG :x"].

(** ** What a reader will deliver

    [clean i] is the run of bytes a script delivers before its first
    error; [avail b t] is what reader [b] over transport [t] can still
    hand out before it has to report an error or wait. *)

Fixpoint clean (i : list (list byte * option error)) : list byte :=
  match i with
  | [] => []
  | (bs, None) :: rest => bs ++ clean rest
  | (bs, Some _) :: _ => bs
  end.

Definition avail (b : Reader) (t : Transport) : list byte :=
  buf b ++ match rerr b with
           | Some _ => []
           | None => if closed t then [] else clean (incoming t)
           end.

(** The first error a script will report, and the error a reader will
    report once it has handed out what is available; [None] when it will
    wait instead. *)
Fixpoint script_error (i : list (list byte * option error)) (last : option error)
  : option error :=
  match i with
  | [] => last
  | (_, Some e) :: _ => Some e
  | (_, None) :: rest => script_error rest last
  end.

Definition next_error (b : Reader) (t : Transport) : option error :=
  match rerr b with
  | Some e => Some e
  | None => if closed t then Some ErrClosed else script_error (incoming t) (eos t)
  end.

(** A read that returns no byte and no error. *)
Definition idle (c : list byte * option error) : bool :=
  match c with
  | ([], None) => true
  | _ => false
  end.

(** Every scripted read returns a byte or an error. *)
Definition prompt (t : Transport) : Prop :=
  Forall (fun c => idle c = false) (incoming t).

(** A frame: bytes without the delimiter, then the delimiter. *)
Definition frame (l : list byte) : Prop :=
  exists body, l = body ++ [delim] /\ ~ In delim body.

(** Reader [dec] reads transport [t] of world [w]. *)
Definition reads_from (dec : Decoder) (w : World) (t : Transport) : Prop :=
  store w !! rd (reader dec) = Some t.

(** ** Threads

    A system is a list of threads over one shared state.  A schedule
    names, step by step, the thread that moves; a thread that cannot move
    (it waits for the mutex, or it has returned) makes the schedule
    invalid. *)

Section Interleaving.
Context {T S : Type} (step : T -> S -> option (T * S)).

Definition sched_step (i : nat) (ths : list T) (s : S) : option (list T * S) :=
  match ths !! i with
  | None => None
  | Some th =>
      match step th s with
      | None => None
      | Some (th', s') => Some (<[i := th']> ths, s')
      end
  end.

Fixpoint exec (sched : list nat) (ths : list T) (s : S) : option (list T * S) :=
  match sched with
  | [] => Some (ths, s)
  | i :: sched' =>
      match sched_step i ths s with
      | None => None
      | Some (ths', s') => exec sched' ths' s'
      end
  end.
End Interleaving.

(** A goroutine inside [Encoder.Write(p)], one constructor per program
    point.  The transport takes the payload byte by byte, so a second
    writer could get in between two bytes if nothing stopped it. *)
Inductive wthread : Type :=
| WLock (p : list byte)                   (* at enc.mu.Lock() *)
| WCall (p : list byte)                   (* at enc.writer.Write(p) *)
| WSend (p q : list byte) (n : nat)       (* inside it: q left, n taken *)
| WUnlock (p : list byte) (n : nat) (err : option error)  (* at enc.mu.Unlock() *)
| WDone (p : list byte) (n : nat) (err : option error).   (* returned n, err *)

Definition wstep (th : wthread) (s : Encoder * World) : option (wthread * (Encoder * World)) :=
  let '(enc, w) := s in
  match th with
  | WLock p =>
      if emu enc then None else Some (WCall p, (mkEncoder (writer enc) true, w))
  | WCall p =>
      match store w !! writer enc with
      | None => None
      | Some t =>
          let t := tenter t p in
          Some (if closed t then WUnlock p 0 (Some ErrClosed) else WSend p p 0,
                (enc, put_transport w (writer enc) t))
      end
  | WSend p [] n => Some (WUnlock p n None, (enc, w))
  | WSend p (x :: q) n =>
      match store w !! writer enc with
      | None => None
      | Some t =>
          match tput t x with
          | Some t' => Some (WSend p q (S n), (enc, put_transport w (writer enc) t'))
          | None => Some (WUnlock p n (Some ErrShortWrite), (enc, w))
          end
      end
  | WUnlock p n err => Some (WDone p n err, (mkEncoder (writer enc) false, w))
  | WDone _ _ _ => None
  end.

(** [Encode(m)] is [Write(m.Bytes())]; the serialization is local. *)
Definition encode_thread `{Codec} (m : Message) : wthread := WLock (Bytes m).










(** A goroutine inside [Decoder.Decode()]. *)
Inductive dthread `{Codec} : Type :=
| DLock                                   (* at dec.mu.Lock() *)
| DRead                                   (* at dec.reader.ReadString(delim) *)
| DUnlock (err : option error)            (* at dec.mu.Unlock() *)
| DReturn (err : option error)            (* at if err != nil *)
| DDone (m : option Message) (err : option error).

Definition dstep `{Codec} (th : dthread) (s : Decoder * World)
  : option (dthread * (Decoder * World)) :=
  let '(dec, w) := s in
  match th with
  | DLock =>
      if dmu dec then None
      else Some (DRead, (mkDecoder (reader dec) (line dec) true, w))
  | DRead =>
      match store w !! rd (reader dec) with
      | None => None
      | Some t =>
          match ReadString (reader dec) t with
          | RBlock => None
          | RLine s err r t =>
              Some (DUnlock err, (mkDecoder r s (dmu dec), put_transport w (rd r) t))
          end
      end
  | DUnlock err =>
      Some (DReturn err, (mkDecoder (reader dec) (line dec) false, w))
  | DReturn (Some e) => Some (DDone None (Some e), (dec, w))
  | DReturn None => Some (DDone (Some (ParseMessage (line dec))) None, (dec, w))
  | DDone _ _ => None
  end.

(** ** Sequences of calls and what lies behind an error *)

(** What is left of a script once its first error has been reported. *)
Fixpoint after_error (i : list (list byte * option error))
  : list (list byte * option error) :=
  match i with
  | [] => []
  | (_, Some _) :: rest => rest
  | (_, None) :: rest => after_error rest
  end.

(** [Encode] called on each message of a list, one call after the other. *)
Fixpoint encode_all `{Codec} (ms : list Message) (enc : Encoder) (w : World)
  : outcome (list (option error) * Encoder * World) :=
  match ms with
  | [] => Ret ([], enc, w)
  | m :: ms' =>
      match Encode enc m w with
      | Ret (err, enc, w) =>
          match encode_all ms' enc w with
          | Ret (errs, enc, w) => Ret (err :: errs, enc, w)
          | Block => Block
          | Panic => Panic
          end
      | Block => Block
      | Panic => Panic
      end
  end.

(** The transport can still take [n] bytes. *)
Definition has_room (t : Transport) (n : nat) : Prop :=
  match room t with
  | None => True
  | Some k => n <= k
  end.

(** The same transport with another write side. *)
Definition set_wire (t : Transport) (o : list byte) (ws : list (list byte))
           (r : option nat) : Transport :=
  mkTransport (incoming t) (eos t) o ws r (closes t).

(** A connection as [NewConn] makes them: one transport for all three
    references. *)
Definition one_transport (c : Conn) : Prop :=
  writer (encoder c) = conn c /\ rd (reader (decoder c)) = conn c.


(** A transport with a script of one chunk and an error, followed by a
    frame that arrives after the error. *)
Definition hiccup : Transport :=
  pipe [(bytes_of "PING :ser", Some (ErrIO 4)); (ln "NICK a", None)].

(** An open transport that delivers a frame and the start of another
    and then stays silent. *)
Definition quiet : Transport := pipe [(ln "PING :server" ++ bytes_of "NI", None)].


(** A decoder that has a frame and a half in its buffer. *)
Definition primed : Decoder :=
  mkDecoder (mkReader 0 (ln "PING :server" ++ bytes_of "NI") None) [] false.

(** * Properties *)

(** ** Finding the delimiter *)

Lemma IndexByte_None (s : list byte) (c : byte) :
  IndexByte s c = None <-> ~ In c s.
Proof.
  induction s as [|x s IH]; simpl.
  - tauto.
  - destruct (Byte.eqb x c) eqn:E.
    + apply Byte.byte_dec_bl in E. split; [discriminate | intros H; destruct H; auto].
    + apply Byte.eqb_false in E.
      destruct (IndexByte s c); simpl.
      * split; [discriminate|]. intros H. exfalso.
        assert (Hn : ~ In c s) by tauto. apply IH in Hn. discriminate.
      * split; [|reflexivity]. intros _ [?|?]; [auto|]. apply IH in H; auto.
Qed.

Lemma IndexByte_Some (s : list byte) (c : byte) (i : nat) :
  IndexByte s c = Some i ->
  s = firstn i s ++ c :: skipn (S i) s /\ ~ In c (firstn i s).
Proof.
  revert i. induction s as [|x s IH]; simpl; intros i H; [discriminate|].
  destruct (Byte.eqb x c) eqn:E.
  - apply Byte.byte_dec_bl in E. inversion H; subst. simpl. tauto.
  - apply Byte.eqb_false in E.
    destruct (IndexByte s c) as [j|]; [|discriminate].
    inversion H; subst. destruct (IH j eq_refl) as [H1 H2].
    simpl. split; [congruence | intros [?|?]; auto].
Qed.

Lemma firstn_S_IndexByte (s : list byte) (c : byte) (i : nat) :
  IndexByte s c = Some i -> firstn (S i) s = firstn i s ++ [c].
Proof.
  revert i. induction s as [|x s IH]; simpl; intros i H; [discriminate|].
  destruct (Byte.eqb x c) eqn:E.
  - apply Byte.byte_dec_bl in E. inversion H; subst. reflexivity.
  - destruct (IndexByte s c) as [j|]; [|discriminate].
    inversion H; subst. simpl. f_equal. apply (IH j eq_refl).
Qed.

(** The first delimiter splits a sequence in one way only. *)
Lemma first_delim_unique (a b c d : list byte) (x : byte) :
  ~ In x a -> ~ In x c -> a ++ x :: b = c ++ x :: d -> a = c /\ b = d.
Proof.
  revert c. induction a as [|y a IH]; intros [|z c] Ha Hc H; simpl in *.
  - inversion H; auto.
  - inversion H; subst. tauto.
  - inversion H; subst. tauto.
  - inversion H; subst. destruct (IH c) as [-> ->]; auto.
Qed.

(** ** The transport's read side *)

Lemma set_incoming_same (t : Transport) : set_incoming t (incoming t) = t.
Proof. destruct t; reflexivity. Qed.

Lemma tread_frame (t t' : Transport) (cap : nat) (bs : list byte) (e : option error) :
  tread t cap = Some (bs, e, t') -> t' = set_incoming t (incoming t').
Proof.
  unfold tread. destruct (closed t).
  - intros H; inversion H; subst. symmetry. apply set_incoming_same.
  - destruct (incoming t) as [|[cs ce] rest] eqn:Hi.
    + destruct (eos t); [|discriminate].
      intros H; inversion H; subst. symmetry. apply set_incoming_same.
    + destruct (length cs <=? cap); intros H; inversion H; subst; reflexivity.
Qed.

Lemma closed_set_incoming (t : Transport) i : closed (set_incoming t i) = closed t.
Proof. reflexivity. Qed.

Lemma clean_cons (cs : list byte) (ce : option error) rest :
  clean ((cs, ce) :: rest) = cs ++ match ce with None => clean rest | Some _ => [] end.
Proof. destruct ce; simpl; [rewrite app_nil_r|]; reflexivity. Qed.

Lemma defaultBufSize_pos : 0 < defaultBufSize.
Proof. unfold defaultBufSize. lia. Qed.

#[local] Opaque defaultBufSize.

Lemma fill_loop_S (i : nat) (b : Reader) (t : Transport) :
  fill_loop (S i) b t =
  match tread t (defaultBufSize - length (buf b)) with
  | None => None
  | Some (bs, e, t') =>
      let b' := mkReader (rd b) (buf b ++ bs) (rerr b) in
      match e with
      | Some _ => Some (mkReader (rd b') (buf b') e, t')
      | None => if 0 <? length bs then Some (b', t') else fill_loop i b' t'
      end
  end.
Proof. reflexivity. Qed.

Lemma fill_is_loop (b : Reader) (t : Transport) :
  fill b t = fill_loop (S 99) b t.
Proof. reflexivity. Qed.

(** ** fill *)

(** Whatever the transport does, a fill uses up part of the script or
    leaves an error pending. *)
Lemma fill_loop_progress (i : nat) (b b' : Reader) (t t' : Transport) :
  length (buf b) < defaultBufSize ->
  fill_loop i b t = Some (b', t') ->
  rd b' = rd b /\ t' = set_incoming t (incoming t') /\
  (weight (incoming t') < weight (incoming t) \/
   (incoming t' = incoming t /\ buf b' = buf b /\ rerr b' <> None)).
Proof.
  revert b t. induction i as [|i IH]; intros b t Hlen.
  - simpl. intros H; inversion H; subst; simpl.
    rewrite set_incoming_same. split; [reflexivity|]. split; [reflexivity|].
    right. repeat split; discriminate.
  - rewrite fill_loop_S.
    destruct (tread t (defaultBufSize - length (buf b))) as [[[bs e] t1]|] eqn:Hr;
      [|discriminate].
    pose proof (tread_frame _ _ _ _ _ Hr) as Hf.
    unfold tread in Hr. destruct (closed t) eqn:Hc.
    { inversion Hr; subst bs e t1. cbv zeta. intros H; inversion H; subst; simpl.
      split; [reflexivity|]. split; [assumption|]. right.
      rewrite app_nil_r. repeat split; discriminate. }
    destruct (incoming t) as [|[cs ce] rest] eqn:Hi.
    { destruct (eos t) as [e0|]; [|discriminate].
      inversion Hr; subst bs e t1. cbv zeta. intros H; inversion H; subst; simpl.
      split; [reflexivity|]. split; [assumption|]. right.
      rewrite app_nil_r, Hi. repeat split; discriminate. }
    destruct (length cs <=? defaultBufSize - length (buf b)) eqn:Hcap.
    + inversion Hr; subst bs e t1. clear Hr. cbv zeta.
      assert (Hw : weight (incoming (set_incoming t rest)) < weight ((cs, ce) :: rest))
        by (simpl; lia).
      destruct ce as [e0|].
      * intros H; inversion H; subst; simpl. split; [reflexivity|].
        split; [reflexivity|]. left. exact Hw.
      * destruct (0 <? length cs) eqn:Hn.
        -- intros H; inversion H; subst; simpl. split; [reflexivity|].
           split; [reflexivity|]. left. exact Hw.
        -- apply Nat.ltb_ge in Hn.
           assert (cs = []) by (destruct cs; simpl in *; [reflexivity|lia]).
           subst cs. intros H. apply IH in H; [|simpl; rewrite app_nil_r; exact Hlen].
           destruct H as (H1 & H2 & H3). simpl in *.
           split; [exact H1|]. split.
           { rewrite H2. destruct t; reflexivity. }
           left. destruct H3 as [H3|(H3 & _)]; [lia|rewrite H3; simpl; lia].
    + apply Nat.leb_gt in Hcap. inversion Hr; subst bs e t1. clear Hr. cbv zeta.
      assert (Hn : (0 <? length (firstn (defaultBufSize - length (buf b)) cs)) = true).
      { apply Nat.ltb_lt. rewrite length_firstn. lia. }
      rewrite Hn. intros H; inversion H; subst; simpl.
      split; [reflexivity|]. split; [reflexivity|]. left.
      rewrite length_skipn. lia.
Qed.

Lemma prompt_set_incoming (t : Transport) i :
  prompt (set_incoming t i) <-> Forall (fun c => idle c = false) i.
Proof. reflexivity. Qed.

(** On a prompt transport a fill is one read, and it changes nothing in
    what the reader will deliver. *)
Lemma fill_prompt (b b' : Reader) (t t' : Transport) :
  rerr b = None ->
  length (buf b) < defaultBufSize ->
  prompt t ->
  fill b t = Some (b', t') ->
  avail b' t' = avail b t /\ prompt t'.
Proof.
  intros He Hlen Hp. rewrite fill_is_loop, fill_loop_S.
  unfold avail at 2. rewrite He.
  unfold tread. destruct (closed t) eqn:Hc.
  { cbv zeta. intros H; inversion H; subst. unfold avail; simpl.
    rewrite !app_nil_r. auto. }
  unfold prompt in Hp.
  destruct (incoming t) as [|[cs ce] rest] eqn:Hi.
  { destruct (eos t) as [e0|]; [|discriminate].
    cbv zeta. intros H; inversion H; subst. unfold avail; simpl.
    rewrite !app_nil_r. split; [reflexivity|]. unfold prompt. rewrite Hi. constructor. }
  inversion Hp as [|? ? Hc0 Hrest]; subst.
  rewrite clean_cons.
  destruct (length cs <=? defaultBufSize - length (buf b)) eqn:Hcap; cbv zeta.
  - destruct ce as [e0|].
    + intros H; inversion H; subst. unfold avail; simpl.
      rewrite !app_nil_r. auto.
    + destruct cs as [|c cs]; [discriminate Hc0|].
      change (0 <? length (c :: cs)) with true. cbv iota.
      intros H; inversion H; subst. unfold avail; simpl.
      rewrite ?He. change (closed (set_incoming t rest)) with (closed t). rewrite Hc.
      rewrite <- app_assoc. auto.
  - apply Nat.leb_gt in Hcap.
    assert (Hn : (0 <? length (firstn (defaultBufSize - length (buf b)) cs)) = true).
    { apply Nat.ltb_lt. rewrite length_firstn. lia. }
    rewrite Hn. intros H; inversion H; subst. unfold avail; simpl.
    rewrite ?He. change (closed (set_incoming t ?i)) with (closed t). rewrite Hc.
    split.
    { rewrite <- app_assoc. f_equal. destruct ce.
      - rewrite app_nil_r. apply firstn_skipn.
      - rewrite app_assoc. f_equal. apply firstn_skipn. }
    apply prompt_set_incoming. constructor; [|assumption].
    destruct (skipn (defaultBufSize - length (buf b)) cs) eqn:Hs; [|reflexivity].
    exfalso. apply (f_equal (@length byte)) in Hs. rewrite length_skipn in Hs.
    simpl in Hs. lia.
Qed.

(** A fill that waits found nothing to read. *)
Lemma fill_block (b : Reader) (t : Transport) :
  rerr b = None -> length (buf b) < defaultBufSize -> prompt t ->
  fill b t = None -> avail b t = buf b.
Proof.
  intros He Hlen Hp. rewrite fill_is_loop, fill_loop_S.
  unfold avail. rewrite He.
  unfold tread. destruct (closed t) eqn:Hc.
  { cbv zeta. discriminate. }
  unfold prompt in Hp.
  destruct (incoming t) as [|[cs ce] rest] eqn:Hi.
  { intros _. apply app_nil_r. }
  inversion Hp as [|? ? Hc0 Hrest]; subst.
  destruct (length cs <=? defaultBufSize - length (buf b)) eqn:Hcap; cbv zeta.
  - destruct ce as [e0|]; [discriminate|].
    destruct cs as [|c cs]; [discriminate Hc0|].
    change (0 <? length (c :: cs)) with true. discriminate.
  - apply Nat.leb_gt in Hcap.
    assert (Hn : (0 <? length (firstn (defaultBufSize - length (buf b)) cs)) = true).
    { apply Nat.ltb_lt. rewrite length_firstn. lia. }
    rewrite Hn. discriminate.
Qed.

(** ** ReadString *)

Lemma read_loop_S (fuel : nat) (acc : list byte) (b : Reader) (t : Transport) :
  read_loop (S fuel) acc b t =
  match IndexByte (buf b) delim with
  | Some i =>
      Some (RLine (acc ++ firstn (S i) (buf b)) None
                  (mkReader (rd b) (skipn (S i) (buf b)) (rerr b)) t)
  | None =>
      match rerr b with
      | Some e => Some (RLine (acc ++ buf b) (Some e) (mkReader (rd b) [] None) t)
      | None =>
          if defaultBufSize <=? length (buf b)
          then read_loop fuel (acc ++ buf b) (mkReader (rd b) [] None) t
          else match fill b t with
               | None => Some RBlock
               | Some (b', t') => read_loop fuel acc b' t'
               end
      end
  end.
Proof. reflexivity. Qed.

Lemma empty_buffer_not_full : (defaultBufSize <=? length (@nil byte)) = false.
Proof. apply Nat.leb_gt. simpl. apply defaultBufSize_pos. Qed.

(** The loop never runs out of rounds. *)
Lemma read_loop_total (fuel : nat) (acc : list byte) (b : Reader) (t : Transport) :
  pending_rounds b t < fuel -> read_loop fuel acc b t <> None.
Proof.
  revert acc b t. induction fuel as [|fuel IH]; intros acc b t Hm; [lia|].
  rewrite read_loop_S.
  destruct (IndexByte (buf b) delim); [discriminate|].
  unfold pending_rounds in Hm.
  destruct (rerr b) eqn:He; [discriminate|].
  destruct (defaultBufSize <=? length (buf b)) eqn:Hfull.
  - apply IH. unfold pending_rounds. simpl buf. simpl rerr.
    rewrite empty_buffer_not_full. lia.
  - apply Nat.leb_gt in Hfull.
    destruct (fill b t) as [[b' t']|] eqn:Hf; [|discriminate].
    apply IH. rewrite fill_is_loop in Hf.
    apply fill_loop_progress in Hf; [|exact Hfull].
    destruct Hf as (_ & _ & [Hw|(Hi & Hb & Hr)]).
    + unfold pending_rounds.
      destruct (defaultBufSize <=? length (buf b')); destruct (rerr b'); lia.
    + unfold pending_rounds. rewrite Hi, Hb.
      rewrite (proj2 (Nat.leb_gt _ _) Hfull).
      destruct (rerr b'); [lia|congruence].
Qed.

Lemma rounds_enough (b : Reader) (t : Transport) : pending_rounds b t < rounds t.
Proof.
  unfold pending_rounds, rounds.
  destruct (defaultBufSize <=? length (buf b)); destruct (rerr b); lia.
Qed.

(** [ReadString] is exactly its loop. *)
Lemma ReadString_loop (b : Reader) (t : Transport) :
  read_loop (rounds t) [] b t = Some (ReadString b t).
Proof.
  unfold ReadString.
  destruct (read_loop (rounds t) [] b t) eqn:H; [reflexivity|].
  exfalso. revert H. apply read_loop_total, rounds_enough.
Qed.

(** The shape of what the loop returns, on any transport: without an
    error the line ends at its only delimiter; with an error the line has
    no delimiter and the buffer is left empty. *)
Lemma read_loop_shape (fuel : nat) (acc : list byte) (b : Reader) (t : Transport)
      (s : list byte) (e : option error) (b' : Reader) (t' : Transport) :
  read_loop fuel acc b t = Some (RLine s e b' t') ->
  rd b' = rd b /\ t' = set_incoming t (incoming t') /\
  exists x, s = acc ++ x /\
    match e with
    | None => exists body, x = body ++ [delim] /\ ~ In delim body
    | Some _ => ~ In delim x /\ buf b' = [] /\ rerr b' = None
    end.
Proof.
  revert acc b t. induction fuel as [|fuel IH]; intros acc b t; [discriminate|].
  rewrite read_loop_S.
  destruct (IndexByte (buf b) delim) as [i|] eqn:Hi.
  - intros H; inversion H; subst. simpl.
    split; [reflexivity|]. split; [symmetry; apply set_incoming_same|].
    exists (firstn (S i) (buf b)). split; [reflexivity|].
    exists (firstn i (buf b)). split.
    + apply firstn_S_IndexByte, Hi.
    + apply IndexByte_Some in Hi. tauto.
  - apply IndexByte_None in Hi.
    destruct (rerr b) as [e0|] eqn:He.
    { intros H; inversion H; subst. simpl.
      split; [reflexivity|]. split; [symmetry; apply set_incoming_same|].
      exists (buf b). auto. }
    destruct (defaultBufSize <=? length (buf b)) eqn:Hfull.
    + intros H. apply IH in H. destruct H as (H1 & H2 & x & Hs & Hx).
      split; [exact H1|]. split; [exact H2|].
      exists (buf b ++ x). split; [rewrite Hs, app_assoc; reflexivity|].
      destruct e as [e1|].
      * destruct Hx as (Hx & ? & ?). repeat split; try assumption.
        rewrite in_app_iff. tauto.
      * destruct Hx as (body & -> & Hb). exists (buf b ++ body).
        split; [rewrite app_assoc; reflexivity|]. rewrite in_app_iff. tauto.
    + apply Nat.leb_gt in Hfull.
      destruct (fill b t) as [[b1 t1]|] eqn:Hf; [|discriminate].
      intros H. apply IH in H. destruct H as (H1 & H2 & Hx).
      rewrite fill_is_loop in Hf. apply fill_loop_progress in Hf; [|exact Hfull].
      destruct Hf as (F1 & F2 & _).
      split; [congruence|]. split; [|exact Hx].
      rewrite H2. rewrite F2. reflexivity.
Qed.

(** On a prompt transport the loop hands out exactly the next frame of
    what is available, or everything that is left when there is no
    delimiter in it. *)
Lemma read_loop_prompt (fuel : nat) (acc : list byte) (b : Reader) (t : Transport) :
  pending_rounds b t < fuel ->
  prompt t ->
  match read_loop fuel acc b t with
  | Some (RLine s None b' t') =>
      exists body, avail b t = body ++ delim :: avail b' t' /\
                   ~ In delim body /\ s = acc ++ body ++ [delim] /\ prompt t'
  | Some (RLine s (Some _) b' t') =>
      ~ In delim (avail b t) /\ s = acc ++ avail b t /\ prompt t'
  | Some RBlock => ~ In delim (avail b t)
  | None => False
  end.
Proof.
  revert acc b t. induction fuel as [|fuel IH]; intros acc b t Hm Hp; [lia|].
  rewrite read_loop_S.
  destruct (IndexByte (buf b) delim) as [i|] eqn:Hi.
  - exists (firstn i (buf b)). pose proof (IndexByte_Some _ _ _ Hi) as [Hs Hn].
    split; [|split; [exact Hn|split; [|exact Hp]]].
    + unfold avail. simpl. rewrite Hs at 1. rewrite <- app_assoc. reflexivity.
    + rewrite (firstn_S_IndexByte _ _ _ Hi). reflexivity.
  - apply IndexByte_None in Hi.
    destruct (rerr b) as [e0|] eqn:He.
    { unfold avail. rewrite He, app_nil_r. auto. }
    destruct (defaultBufSize <=? length (buf b)) eqn:Hfull.
    + set (b0 := mkReader (rd b) [] None).
      assert (Hm0 : pending_rounds b0 t < fuel).
      { unfold pending_rounds in *. simpl buf. simpl rerr.
        rewrite empty_buffer_not_full. rewrite He, Hfull in Hm. lia. }
      assert (Ha : avail b t = buf b ++ avail b0 t).
      { unfold avail. rewrite He. reflexivity. }
      specialize (IH (acc ++ buf b) b0 t Hm0 Hp).
      destruct (read_loop fuel (acc ++ buf b) b0 t) as [[s [e1|] b' t'|]|];
        [| | |exact IH].
      * destruct IH as (H1 & H2 & H3). rewrite Ha.
        split; [rewrite in_app_iff; tauto|]. split; [|exact H3].
        rewrite H2, app_assoc. reflexivity.
      * destruct IH as (body & H1 & H2 & H3 & H4). exists (buf b ++ body).
        split; [rewrite Ha, H1, app_assoc; reflexivity|].
        split; [rewrite in_app_iff; tauto|]. split; [|exact H4].
        rewrite H3, !app_assoc. reflexivity.
      * rewrite Ha, in_app_iff. tauto.
    + apply Nat.leb_gt in Hfull.
      destruct (fill b t) as [[b1 t1]|] eqn:Hf.
      * destruct (fill_prompt _ _ _ _ He Hfull Hp Hf) as [Ha Hp1].
        assert (Hm1 : pending_rounds b1 t1 < fuel).
        { rewrite fill_is_loop in Hf.
          destruct (fill_loop_progress _ _ _ _ _ Hfull Hf) as (_ & _ & [Hw|(Hj & Hb & Hr)]).
          - unfold pending_rounds in *. rewrite He in Hm.
            destruct (defaultBufSize <=? length (buf b1));
              destruct (rerr b1); destruct (defaultBufSize <=? length (buf b)); lia.
          - unfold pending_rounds in *. rewrite Hj, Hb. rewrite He in Hm.
            destruct (defaultBufSize <=? length (buf b));
              destruct (rerr b1); [lia|congruence|lia|congruence]. }
        specialize (IH acc b1 t1 Hm1 Hp1). rewrite Ha in IH. exact IH.
      * rewrite (fill_block _ _ He Hfull Hp Hf). exact Hi.
Qed.

(** One call of [ReadString] on a prompt transport that has a frame
    available returns that frame and leaves exactly the rest. *)
Lemma ReadString_frame (b : Reader) (t : Transport) (l rest : list byte) :
  prompt t ->
  avail b t = l ++ delim :: rest ->
  ~ In delim l ->
  exists b' t',
    ReadString b t = RLine (l ++ [delim]) None b' t' /\
    rd b' = rd b /\ t' = set_incoming t (incoming t') /\
    avail b' t' = rest /\ prompt t'.
Proof.
  intros Hp Ha Hl.
  pose proof (read_loop_prompt (rounds t) [] b t (rounds_enough b t) Hp) as H.
  pose proof (read_loop_shape (rounds t) [] b t) as Hs.
  rewrite ReadString_loop in H, Hs.
  destruct (ReadString b t) as [s [e|] b' t'|].
  - exfalso. destruct H as (H & _). apply H. rewrite Ha, in_app_iff. simpl. tauto.
  - destruct H as (body & H1 & H2 & H3 & H4).
    destruct (Hs _ _ _ _ eq_refl) as (S1 & S2 & _).
    rewrite Ha in H1. apply first_delim_unique in H1; [|assumption|assumption].
    destruct H1 as [-> ->]. exists b', t'. simpl in H3. subst s. auto.
  - exfalso. apply H. rewrite Ha, in_app_iff. simpl. tauto.
Qed.

(** A fill does not change the error the reader will meet. *)
Lemma fill_prompt_error (b b' : Reader) (t t' : Transport) :
  rerr b = None ->
  length (buf b) < defaultBufSize ->
  prompt t ->
  fill b t = Some (b', t') ->
  next_error b' t' = next_error b t.
Proof.
  intros He Hlen Hp. rewrite fill_is_loop, fill_loop_S.
  unfold next_error at 2. rewrite He.
  unfold tread. destruct (closed t) eqn:Hc.
  { cbv zeta. intros H; inversion H; subst. reflexivity. }
  unfold prompt in Hp.
  destruct (incoming t) as [|[cs ce] rest] eqn:Hi.
  { destruct (eos t) as [e0|]; [|discriminate].
    cbv zeta. intros H; inversion H; subst. reflexivity. }
  inversion Hp as [|? ? Hc0 Hrest]; subst.
  destruct (length cs <=? defaultBufSize - length (buf b)) eqn:Hcap; cbv zeta.
  - destruct ce as [e0|].
    + intros H; inversion H; subst. reflexivity.
    + destruct cs as [|c cs]; [discriminate Hc0|].
      change (0 <? length (c :: cs)) with true. cbv iota.
      intros H; inversion H; subst. unfold next_error. simpl.
      rewrite ?He. change (closed (set_incoming t rest)) with (closed t).
      rewrite Hc. reflexivity.
  - apply Nat.leb_gt in Hcap.
    assert (Hn : (0 <? length (firstn (defaultBufSize - length (buf b)) cs)) = true).
    { apply Nat.ltb_lt. rewrite length_firstn. lia. }
    rewrite Hn. intros H; inversion H; subst. unfold next_error. simpl.
    rewrite ?He. change (closed (set_incoming t ?i)) with (closed t).
    rewrite Hc. reflexivity.
Qed.

Lemma fill_block_error (b : Reader) (t : Transport) :
  rerr b = None -> length (buf b) < defaultBufSize -> prompt t ->
  fill b t = None -> next_error b t = None.
Proof.
  intros He Hlen Hp. rewrite fill_is_loop, fill_loop_S.
  unfold next_error. rewrite He.
  unfold tread. destruct (closed t) eqn:Hc.
  { cbv zeta. discriminate. }
  unfold prompt in Hp.
  destruct (incoming t) as [|[cs ce] rest] eqn:Hi.
  { destruct (eos t); [discriminate|reflexivity]. }
  inversion Hp as [|? ? Hc0 Hrest]; subst.
  destruct (length cs <=? defaultBufSize - length (buf b)) eqn:Hcap; cbv zeta.
  - destruct ce as [e0|]; [discriminate|].
    destruct cs as [|c cs]; [discriminate Hc0|].
    change (0 <? length (c :: cs)) with true. discriminate.
  - apply Nat.leb_gt in Hcap.
    assert (Hn : (0 <? length (firstn (defaultBufSize - length (buf b)) cs)) = true).
    { apply Nat.ltb_lt. rewrite length_firstn. lia. }
    rewrite Hn. discriminate.
Qed.

(** The error the loop reports is the one the reader was going to meet;
    it waits only when there is none. *)
Lemma read_loop_error (fuel : nat) (acc : list byte) (b : Reader) (t : Transport) :
  prompt t ->
  match read_loop fuel acc b t with
  | Some (RLine _ (Some e) _ _) => next_error b t = Some e
  | Some RBlock => next_error b t = None
  | _ => True
  end.
Proof.
  revert acc b t. induction fuel as [|fuel IH]; intros acc b t Hp; [exact I|].
  rewrite read_loop_S.
  destruct (IndexByte (buf b) delim) as [i|]; [exact I|].
  destruct (rerr b) as [e0|] eqn:He.
  { unfold next_error. rewrite He. reflexivity. }
  destruct (defaultBufSize <=? length (buf b)) eqn:Hfull.
  - specialize (IH (acc ++ buf b) (mkReader (rd b) [] None) t Hp).
    unfold next_error in *. simpl in IH. rewrite He. exact IH.
  - apply Nat.leb_gt in Hfull.
    destruct (fill b t) as [[b1 t1]|] eqn:Hf.
    + destruct (fill_prompt _ _ _ _ He Hfull Hp Hf) as [_ Hp1].
      rewrite <- (fill_prompt_error _ _ _ _ He Hfull Hp Hf).
      apply IH, Hp1.
    + apply fill_block_error; assumption.
Qed.

(** One call of [ReadString] on a prompt transport that meets an error
    before any delimiter returns all that was available, with that
    error, and keeps nothing of it in the buffer. *)
Lemma ReadString_partial (b : Reader) (t : Transport) (e : error) :
  prompt t ->
  ~ In delim (avail b t) ->
  next_error b t = Some e ->
  exists b' t',
    ReadString b t = RLine (avail b t) (Some e) b' t' /\
    rd b' = rd b /\ t' = set_incoming t (incoming t') /\
    buf b' = [] /\ rerr b' = None /\ prompt t'.
Proof.
  intros Hp Ha Hn.
  pose proof (read_loop_prompt (rounds t) [] b t (rounds_enough b t) Hp) as H.
  pose proof (read_loop_shape (rounds t) [] b t) as Hs.
  pose proof (read_loop_error (rounds t) [] b t Hp) as He.
  rewrite ReadString_loop in H, Hs, He.
  destruct (ReadString b t) as [s [e'|] b' t'|].
  - destruct H as (_ & H2 & H3).
    destruct (Hs _ _ _ _ eq_refl) as (S1 & S2 & x & _ & _ & S3 & S4).
    exists b', t'. simpl in H2. subst s.
    assert (e' = e) by congruence. subst e'. auto 10.
  - exfalso. destruct H as (body & H1 & _). apply Ha. rewrite H1, in_app_iff.
    simpl. tauto.
  - congruence.
Qed.

(** On any transport: a line returned without an error is a frame; a
    line returned with an error has no delimiter and empties the buffer. *)
Lemma ReadString_shape (b b' : Reader) (t t' : Transport) (s : list byte) (e : option error) :
  ReadString b t = RLine s e b' t' ->
  rd b' = rd b /\ t' = set_incoming t (incoming t') /\
  match e with
  | None => frame s
  | Some _ => ~ In delim s /\ buf b' = [] /\ rerr b' = None
  end.
Proof.
  intros H. pose proof (ReadString_loop b t) as HL. rewrite H in HL.
  apply read_loop_shape in HL. destruct HL as (H1 & H2 & x & Hx & He).
  simpl in Hx. subst x. auto.
Qed.

(** One call of [ReadString] on a prompt transport that has neither a
    frame nor an error to give waits. *)
Lemma ReadString_block (b : Reader) (t : Transport) :
  prompt t ->
  ~ In delim (avail b t) ->
  next_error b t = None ->
  ReadString b t = RBlock.
Proof.
  intros Hp Ha Hn.
  pose proof (read_loop_prompt (rounds t) [] b t (rounds_enough b t) Hp) as H.
  pose proof (read_loop_error (rounds t) [] b t Hp) as He.
  rewrite ReadString_loop in H, He.
  destruct (ReadString b t) as [s [e'|] b' t'|].
  - congruence.
  - exfalso. destruct H as (body & H1 & _). apply Ha. rewrite H1, in_app_iff.
    simpl. tauto.
  - reflexivity.
Qed.

(** On a closed transport a reader with nothing buffered reports the
    closed transport at once. *)
Lemma ReadString_closed (l : loc) (t : Transport) :
  closed t = true ->
  ReadString (NewReader l) t = RLine [] (Some ErrClosed) (NewReader l) t.
Proof.
  intros Hc. unfold ReadString.
  replace (rounds t) with (S (S (2 * weight (incoming t) + 1)))
    by (unfold rounds; lia).
  rewrite read_loop_S. simpl IndexByte. simpl rerr. cbv iota.
  simpl buf. rewrite empty_buffer_not_full.
  rewrite fill_is_loop, fill_loop_S. unfold tread. rewrite Hc. cbv zeta iota.
  rewrite read_loop_S. simpl. reflexivity.
Qed.

(** ** The store *)

Lemma put_put (w : World) (l : loc) (t1 t2 : Transport) :
  put_transport (put_transport w l t1) l t2 = put_transport w l t2.
Proof.
  unfold put_transport, set_store. simpl. rewrite list_insert_insert_eq. reflexivity.
Qed.

Lemma lookup_put (w : World) (l : loc) (t0 t : Transport) :
  store w !! l = Some t0 -> store (put_transport w l t) !! l = Some t.
Proof.
  intros H. simpl. apply list_lookup_insert_eq. eapply lookup_lt_Some, H.
Qed.

Lemma put_same (w : World) (l : loc) (t : Transport) :
  store w !! l = Some t -> put_transport w l t = w.
Proof.
  intros H. unfold put_transport, set_store. rewrite list_insert_id by exact H.
  destruct w; reflexivity.
Qed.

(** ** Decoder *)

Section Decoding.
Context `{Codec}.

(** [Decode] in terms of the one [ReadString] call it makes. *)
Lemma Decode_unfold (dec : Decoder) (w : World) (t : Transport) :
  dmu dec = false ->
  reads_from dec w t ->
  Decode dec w =
  match ReadString (reader dec) t with
  | RBlock => Block
  | RLine s (Some e) r t' =>
      Ret ((None, Some e), mkDecoder r s false, put_transport w (rd r) t')
  | RLine s None r t' =>
      Ret ((Some (ParseMessage s), None), mkDecoder r s false, put_transport w (rd r) t')
  end.
Proof.
  unfold Decode, reads_from. intros -> Hl. simpl. rewrite Hl.
  destruct (ReadString (reader dec) t) as [s [e|] r t'|]; reflexivity.
Qed.

Lemma Decode_frame (dec : Decoder) (w : World) (t : Transport) (l rest : list byte) :
  dmu dec = false ->
  reads_from dec w t ->
  prompt t ->
  avail (reader dec) t = l ++ delim :: rest ->
  ~ In delim l ->
  exists dec' t',
    Decode dec w = Ret ((Some (ParseMessage (l ++ [delim])), None), dec',
                        put_transport w (rd (reader dec)) t') /\
    dmu dec' = false /\ line dec' = l ++ [delim] /\
    rd (reader dec') = rd (reader dec) /\
    t' = set_incoming t (incoming t') /\
    avail (reader dec') t' = rest /\ prompt t'.
Proof.
  intros Hmu Hl Hp Ha Hn.
  rewrite (Decode_unfold dec w t Hmu Hl).
  destruct (ReadString_frame _ _ _ _ Hp Ha Hn) as (r & t' & -> & H1 & H2 & H3 & H4).
  exists (mkDecoder r (l ++ [delim]) false), t'. simpl. rewrite H1. auto 10.
Qed.

(** C1. For every sequence of frames that a prompt transport has
    available to a decoder (in its buffer and in the chunks it will
    deliver before any error), that many calls of [Decode] in a row all
    succeed and return [ParseMessage] of the frames, delimiter
    included, in stream order; afterwards exactly the bytes behind the
    last frame are still available: none was read twice, none was
    skipped. *)
Theorem Decode_in_stream_order
        (lines : list (list byte)) (extra : list byte)
        (dec : Decoder) (w : World) (t : Transport) :
  dmu dec = false ->
  reads_from dec w t ->
  prompt t ->
  Forall frame lines ->
  avail (reader dec) t = concat lines ++ extra ->
  exists dec' t',
    decode_n (length lines) dec w =
      Ret (map (fun l => (Some (ParseMessage l), None)) lines, dec',
           put_transport w (rd (reader dec)) t') /\
    dmu dec' = false /\
    rd (reader dec') = rd (reader dec) /\
    t' = set_incoming t (incoming t') /\
    avail (reader dec') t' = extra /\ prompt t'.
Proof.
  revert dec w t. induction lines as [|l lines IH]; intros dec w t Hmu Hl Hp Hf Ha.
  - exists dec, t. simpl. rewrite set_incoming_same.
    rewrite (put_same w _ t Hl). auto 10.
  - inversion Hf as [|? ? (body & -> & Hb) Hf']; subst.
    simpl in Ha. rewrite <- !app_assoc in Ha. simpl in Ha.
    destruct (Decode_frame dec w t body _ Hmu Hl Hp Ha Hb)
      as (d1 & t1 & HD & M1 & _ & R1 & F1 & A1 & P1).
    assert (Hl1 : reads_from d1 (put_transport w (rd (reader dec)) t1) t1).
    { unfold reads_from. rewrite R1. eapply lookup_put, Hl. }
    destruct (IH d1 _ t1 M1 Hl1 P1 Hf' A1) as (d2 & t2 & HN & M2 & R2 & F2 & A2 & P2).
    exists d2, t2. simpl. rewrite HD, HN. rewrite R1, put_put.
    split; [reflexivity|]. split; [exact M2|]. split; [congruence|].
    split; [|auto]. rewrite F2, F1. reflexivity.
Qed.

(** With neither a frame nor an error to come, [Decode] waits. *)
Lemma Decode_waits (dec : Decoder) (w : World) (t : Transport) :
  dmu dec = false ->
  reads_from dec w t ->
  prompt t ->
  ~ In delim (avail (reader dec) t) ->
  next_error (reader dec) t = None ->
  Decode dec w = Block.
Proof.
  intros Hmu Hl Hp Ha Hn.
  rewrite (Decode_unfold dec w t Hmu Hl), (ReadString_block _ _ Hp Ha Hn).
  reflexivity.
Qed.


(** C10. On a prompt transport whose stream meets an error (the end of
    the stream, a closed transport, a failed read) before any
    delimiter, [Decode] returns no message and that error; the bytes
    read so far are taken out of the reader, whose buffer is left
    empty, and are kept only in the decoder's [line] field. *)
Theorem Decode_drops_partial_line
        (dec : Decoder) (w : World) (t : Transport) (e : error) :
  dmu dec = false ->
  reads_from dec w t ->
  prompt t ->
  ~ In delim (avail (reader dec) t) ->
  next_error (reader dec) t = Some e ->
  exists dec' t',
    Decode dec w = Ret ((None, Some e), dec',
                        put_transport w (rd (reader dec)) t') /\
    line dec' = avail (reader dec) t /\
    buf (reader dec') = [] /\ rerr (reader dec') = None /\
    dmu dec' = false /\ t' = set_incoming t (incoming t').
Proof.
  intros Hmu Hl Hp Ha Hn.
  destruct (ReadString_partial _ _ _ Hp Ha Hn) as (r & t' & HR & R1 & F1 & B1 & E1 & _).
  exists (mkDecoder r (avail (reader dec) t) false), t'.
  rewrite (Decode_unfold dec w t Hmu Hl), HR, R1. simpl. auto 10.
Qed.
End Decoding.

(** ** Encoder *)

Lemma tput_frame (t t' : Transport) (x : byte) :
  tput t x = Some t' ->
  outgoing t' = outgoing t ++ [x] /\ writes t' = writes t /\
  closes t' = closes t /\ incoming t' = incoming t /\ eos t' = eos t.
Proof.
  unfold tput. destruct (room t) as [[|k]|]; intros H; inversion H; subst; simpl; auto.
Qed.

Lemma tsend_frame (p : list byte) (t t' : Transport) (n n' : nat) (err : option error) :
  tsend t p n = (n', err, t') ->
  outgoing t' = outgoing t ++ firstn (n' - n) p /\ writes t' = writes t /\
  closes t' = closes t /\ incoming t' = incoming t /\ eos t' = eos t /\
  n <= n' <= n + length p /\ (err = None -> n' = n + length p).
Proof.
  revert t n. induction p as [|x p IH]; simpl; intros t n H.
  - inversion H; subst. rewrite Nat.sub_diag. simpl. rewrite app_nil_r.
    repeat split; auto; lia.
  - destruct (tput t x) as [t1|] eqn:Hp.
    + apply IH in H. apply tput_frame in Hp.
      destruct H as (H1 & H2 & H3 & H4 & H5 & H6 & H7).
      destruct Hp as (P1 & P2 & P3 & P4 & P5).
      replace (n' - n) with (S (n' - S n)) by lia. simpl.
      rewrite H1, P1, <- app_assoc. simpl.
      repeat split; try congruence; try lia. intros E. specialize (H7 E). lia.
    + inversion H; subst. rewrite Nat.sub_diag. simpl. rewrite app_nil_r.
      repeat split; auto; try lia. discriminate.
Qed.

(** What one [Write] call of the transport does: the call is recorded,
    a prefix of the payload goes out, and a short count comes with an
    error. *)
Lemma twrite_frame (p : list byte) (t t' : Transport) (n : nat) (err : option error) :
  twrite t p = (n, err, t') ->
  writes t' = writes t ++ [p] /\ outgoing t' = outgoing t ++ firstn n p /\
  closes t' = closes t /\ incoming t' = incoming t /\ eos t' = eos t /\
  n <= length p /\ (err = None -> n = length p).
Proof.
  unfold twrite. destruct (closed (tenter t p)) eqn:Hc.
  - intros H; inversion H; subst. simpl. rewrite app_nil_r.
    repeat split; auto; try lia. discriminate.
  - intros H. apply tsend_frame in H. rewrite Nat.sub_0_r in H. simpl in H.
    tauto.
Qed.

Lemma Write_unfold (enc : Encoder) (p : list byte) (w : World) (t : Transport) :
  emu enc = false ->
  store w !! writer enc = Some t ->
  Write enc p w =
  Ret (fst (twrite t p), enc, put_transport w (writer enc) (snd (twrite t p))).
Proof.
  unfold Write. intros Hmu Hl. rewrite Hmu. simpl. rewrite Hl.
  destruct (twrite t p) as [[n err] t']. simpl.
  destruct enc; simpl in *; subst; reflexivity.
Qed.

Section Encoding.
Context `{Codec}.

(** C5. [Encode m] serializes [m] and makes exactly one [Write] call,
    which in turn makes exactly one write call on the transport, with
    the serialized bytes as its payload; the bytes that go out are a
    prefix of that payload and nothing else; and the error [Encode]
    returns is the error of that write. *)
Theorem Encode_one_write (enc : Encoder) (m : Message) (w : World) (t : Transport) :
  emu enc = false ->
  store w !! writer enc = Some t ->
  exists n err t',
    twrite t (Bytes m) = (n, err, t') /\
    Write enc (Bytes m) w = Ret ((n, err), enc, put_transport w (writer enc) t') /\
    Encode enc m w = Ret (err, enc, put_transport w (writer enc) t') /\
    writes t' = writes t ++ [Bytes m] /\
    outgoing t' = outgoing t ++ firstn n (Bytes m) /\
    (err = None -> n = length (Bytes m)).
Proof.
  intros Hmu Hl. destruct (twrite t (Bytes m)) as [[n err] t'] eqn:Hw.
  exists n, err, t'. pose proof (Write_unfold enc (Bytes m) w t Hmu Hl) as HW.
  rewrite Hw in HW. simpl in HW. unfold Encode. rewrite HW.
  apply twrite_frame in Hw. tauto.
Qed.
End Encoding.

(** C6, amended. [Write] with an empty payload makes exactly one write
    call on the transport, with the empty payload, and returns what that
    call returns: the count is zero and no byte goes out; the error is
    nil on an open transport and the transport's error on a closed
    one. *)
Theorem Write_empty (enc : Encoder) (w : World) (t : Transport) :
  emu enc = false ->
  store w !! writer enc = Some t ->
  Write enc [] w =
    Ret ((0, if closed t then Some ErrClosed else None), enc,
         put_transport w (writer enc) (tenter t [])) /\
  outgoing (tenter t []) = outgoing t /\
  writes (tenter t []) = writes t ++ [[]].
Proof.
  intros Hmu Hl. rewrite (Write_unfold enc [] w t Hmu Hl).
  unfold twrite. change (closed (tenter t [])) with (closed t).
  destruct (closed t); simpl; auto.
Qed.

(** ** Conn *)

Lemma close_count_put (w : World) (l l' : loc) (t0 t : Transport) :
  store w !! l = Some t0 ->
  close_count (put_transport w l t) l' =
  if decide (l = l') then closes t else close_count w l'.
Proof.
  intros Hl. unfold close_count. simpl. destruct (decide (l = l')) as [->|Hne].
  - rewrite list_lookup_insert_eq by (eapply lookup_lt_Some, Hl). reflexivity.
  - rewrite list_lookup_insert_ne by exact Hne. reflexivity.
Qed.

Lemma close_count_put_same (w : World) (l l' : loc) (t0 t : Transport) :
  store w !! l = Some t0 ->
  closes t = closes t0 ->
  close_count (put_transport w l t) l' = close_count w l'.
Proof.
  intros Hl Hc. rewrite (close_count_put w l l' t0 t Hl).
  destruct (decide (l = l')) as [->|]; [|reflexivity].
  unfold close_count. rewrite Hl. exact Hc.
Qed.

Lemma Write_close_count (enc enc' : Encoder) (p : list byte) (w w' : World)
      (r : nat * option error) (l : loc) :
  Write enc p w = Ret (r, enc', w') -> close_count w' l = close_count w l.
Proof.
  unfold Write. destruct (emu enc); [discriminate|]. simpl.
  destruct (store w !! writer enc) as [t|] eqn:Hl; [|discriminate].
  destruct (twrite t p) as [[n err] t'] eqn:Hw. intros H; inversion H; subst.
  apply twrite_frame in Hw. eapply close_count_put_same; [exact Hl|tauto].
Qed.

Lemma Close_close_count (c : Conn) (w w' : World) (err : option error) :
  Close c w = Ret (err, w') ->
  close_count w' (conn c) = S (close_count w (conn c)).
Proof.
  unfold Close. destruct (store w !! conn c) as [t|] eqn:Hl; [|discriminate].
  simpl. intros H; inversion H; subst.
  rewrite (close_count_put w _ _ t _ Hl). rewrite decide_True by reflexivity.
  unfold close_count. rewrite Hl. reflexivity.
Qed.

Section Connection.
Context `{Codec}.

Lemma Decode_close_count (dec dec' : Decoder) (w w' : World)
      (r : option Message * option error) (l : loc) :
  Decode dec w = Ret (r, dec', w') -> close_count w' l = close_count w l.
Proof.
  unfold Decode. destruct (dmu dec); [discriminate|]. simpl.
  destruct (store w !! rd (reader dec)) as [t|] eqn:Hl; [|discriminate].
  destruct (ReadString (reader dec) t) as [s e r0 t'|] eqn:HR; [|discriminate].
  apply ReadString_shape in HR. destruct HR as (R1 & R2 & _).
  assert (Hc : closes t' = closes t) by (rewrite R2; reflexivity).
  rewrite R1.
  destruct e; intros E; inversion E; subst;
    eapply close_count_put_same; eauto.
Qed.

Lemma do_call_close_count (k : call) (c c' : Conn) (w w' : World) :
  do_call k c w = Ret (c', w') ->
  conn c' = conn c /\
  close_count w' (conn c) = close_count w (conn c) + (if is_close k then 1 else 0).
Proof.
  destruct k as [|m|p|]; simpl.
  - destruct (Decode (decoder c) w) as [[[r d] w1]| |] eqn:E; try discriminate.
    intros E'; inversion E'; subst. simpl. split; [reflexivity|].
    rewrite (Decode_close_count _ _ _ _ _ _ E). lia.
  - unfold Encode.
    destruct (Write (encoder c) (Bytes m) w) as [[[[n err] e] w1]| |] eqn:E;
      try discriminate.
    intros E'; inversion E'; subst. simpl. split; [reflexivity|].
    rewrite (Write_close_count _ _ _ _ _ _ _ E). lia.
  - destruct (Write (encoder c) p w) as [[[r e] w1]| |] eqn:E; try discriminate.
    intros E'; inversion E'; subst. simpl. split; [reflexivity|].
    rewrite (Write_close_count _ _ _ _ _ _ _ E). lia.
  - destruct (Close c w) as [[err w1]| |] eqn:E; try discriminate.
    intros E'; inversion E'; subst. split; [reflexivity|].
    rewrite (Close_close_count _ _ _ _ E). lia.
Qed.

(** C7, amended. A connection keeps no state of its own; it is CLOSED
    when its transport has been closed.  For every sequence of calls
    that return, the transport's close operation is invoked once per
    call of [Close], neither more nor less, and by no other call; so
    CLOSED is terminal, and the connection leaves OPEN exactly when
    [Close] is called. *)
Theorem Close_once_per_call (ks : list call) (c c' : Conn) (w w' : World) :
  do_calls ks c w = Ret (c', w') ->
  conn c' = conn c /\
  close_count w' (conn c) = close_count w (conn c) + closes_in ks /\
  (state_of c w = CLOSED -> state_of c' w' = CLOSED) /\
  (0 < closes_in ks -> state_of c' w' = CLOSED) /\
  (state_of c w = OPEN -> closes_in ks = 0 -> state_of c' w' = OPEN).
Proof.
  intros Hrun.
  assert (Hmain : conn c' = conn c /\
            close_count w' (conn c) = close_count w (conn c) + closes_in ks).
  { revert c w Hrun. induction ks as [|k ks IH]; intros c w Hrun.
    - simpl in Hrun. inversion Hrun; subst. unfold closes_in. simpl. split; [reflexivity|lia].
    - simpl in Hrun.
      destruct (do_call k c w) as [[c1 w1]| |] eqn:E; try discriminate.
      apply do_call_close_count in E. destruct E as [E1 E2].
      apply IH in Hrun. destruct Hrun as [I1 I2]. rewrite E1 in I1, I2.
      split; [exact I1|]. rewrite I2, E2. unfold closes_in. simpl.
      destruct (is_close k); simpl; lia. }
  destruct Hmain as [H1 H2]. split; [exact H1|]. split; [exact H2|].
  unfold state_of. rewrite H1, H2.
  destruct (Nat.ltb_spec 0 (close_count w (conn c)));
    destruct (Nat.ltb_spec 0 (close_count w (conn c) + closes_in ks));
    repeat split; intros; try reflexivity; try discriminate; lia.
Qed.
End Connection.

(** C8. [Dial] makes one attempt to connect.  When it fails, [Dial]
    returns no connection and the error of the attempt, and no transport
    has come into being.  When it succeeds, [Dial] returns [NewConn] of
    the transport that was established. *)
Theorem Dial_result (addr : string) (w : World) :
  match network w addr with
  | inl e =>
      Dial addr w = ((None, Some e),
                     mkWorld (store w) (network w) (dialed w ++ [addr]))
  | inr t =>
      Dial addr w = ((Some (NewConn (length (store w))), None),
                     mkWorld (store w ++ [t]) (network w) (dialed w ++ [addr])) /\
      (store w ++ [t]) !! conn (NewConn (length (store w))) = Some t
  end.
Proof.
  unfold Dial, netDial. destruct (network w addr) as [e|t]; [reflexivity|].
  split; [reflexivity|]. simpl. apply list_lookup_middle. reflexivity.
Qed.

Section Sharing.
Context `{Codec}.

(** C9. [NewConn rwc] is a function of [rwc] alone: it reads no world and
    changes none, so it makes no network operation.  The encoder's
    writer, the transport under the decoder's buffered reader and the
    connection's own reference are all [rwc], one and the same
    transport: once it is closed through the connection, a write through
    the encoder and a read through the decoder both meet the closed
    transport. *)
Theorem NewConn_shares_transport (rwc : loc) :
  writer (encoder (NewConn rwc)) = rwc /\
  rd (reader (decoder (NewConn rwc))) = rwc /\
  conn (NewConn rwc) = rwc /\
  encoder (NewConn rwc) = NewEncoder rwc /\
  decoder (NewConn rwc) = NewDecoder rwc /\
  forall (w : World) (t : Transport) (p : list byte),
    store w !! rwc = Some t ->
    exists e w1 t1,
      Close (NewConn rwc) w = Ret (e, w1) /\
      store w1 !! rwc = Some t1 /\
      Write (encoder (NewConn rwc)) p w1 =
        Ret ((0, Some ErrClosed), encoder (NewConn rwc),
             put_transport w1 rwc (tenter t1 p)) /\
      Decode (decoder (NewConn rwc)) w1 =
        Ret ((None, Some ErrClosed), decoder (NewConn rwc), w1).
Proof.
  repeat (split; [reflexivity|]). intros w t p Hst.
  set (t1 := snd (tclose t)).
  assert (Hc : closed t1 = true) by reflexivity.
  assert (Hst1 : store (put_transport w rwc t1) !! rwc = Some t1)
    by (eapply lookup_put, Hst).
  exists (fst (tclose t)), (put_transport w rwc t1), t1.
  split; [|split; [exact Hst1|split]].
  - unfold Close. simpl. rewrite Hst. reflexivity.
  - rewrite (Write_unfold (encoder (NewConn rwc)) p _ t1 eq_refl Hst1). unfold twrite.
    change (closed (tenter t1 p)) with (closed t1). rewrite Hc. reflexivity.
  - rewrite (Decode_unfold (decoder (NewConn rwc)) _ t1 eq_refl Hst1). simpl.
    rewrite (ReadString_closed rwc t1 Hc). simpl.
    rewrite (put_same _ _ _ Hst1). reflexivity.
Qed.
End Sharing.

(** ** Writers running together *)









Section WriterStep.
Variables (ths : list wthread) (i : nat) (th th' : wthread).
Hypothesis Hi : ths !! i = Some th.









End WriterStep.








(** ** The thread models agree with the sequential methods *)

Lemma exec_app {T S : Type} (step : T -> S -> option (T * S))
      (s1 s2 : list nat) (ths : list T) (s : S) :
  exec step (s1 ++ s2) ths s =
  match exec step s1 ths s with
  | Some (ths', s') => exec step s2 ths' s'
  | None => None
  end.
Proof.
  revert ths s. induction s1 as [|i s1 IH]; intros ths s; simpl; [reflexivity|].
  destruct (sched_step step i ths s) as [[ths' s']|]; [apply IH|reflexivity].
Qed.

Lemma send_as_thread (enc : Encoder) (p q : list byte) (n n' : nat)
      (w : World) (t t' : Transport) (err : option error) :
  store w !! writer enc = Some t ->
  tsend t q n = (n', err, t') ->
  exists k, exec wstep (repeat 0 k) [WSend p q n] (enc, w) =
            Some ([WUnlock p n' err], (enc, put_transport w (writer enc) t')).
Proof.
  revert n w t. induction q as [|x q IH]; intros n w t Hst Hs; simpl in Hs.
  - inversion Hs; subst. exists 1. simpl. rewrite (put_same _ _ _ Hst). reflexivity.
  - destruct (tput t x) as [t1|] eqn:Hp.
    + destruct (IH (S n) (put_transport w (writer enc) t1) t1) as [k Hk].
      { eapply lookup_put, Hst. }
      { exact Hs. }
      exists (S k). simpl. unfold sched_step. simpl. rewrite Hst, Hp.
      rewrite Hk, put_put. reflexivity.
    + inversion Hs; subst. exists 1. simpl. unfold sched_step. simpl.
      rewrite Hst, Hp, (put_same _ _ _ Hst). reflexivity.
Qed.

(** A writer that runs alone does what [Write] does. *)
Lemma Write_as_thread (enc enc' : Encoder) (p : list byte) (w w' : World)
      (n : nat) (err : option error) :
  Write enc p w = Ret ((n, err), enc', w') ->
  exists k, exec wstep (repeat 0 k) [WLock p] (enc, w) =
            Some ([WDone p n err], (enc', w')).
Proof.
  unfold Write. destruct (emu enc) eqn:Hmu; [discriminate|]. simpl.
  destruct (store w !! writer enc) as [t|] eqn:Hst; [|discriminate].
  unfold twrite. destruct (closed (tenter t p)) eqn:Hc.
  - intros H; inversion H; subst. exists 3. simpl. unfold sched_step. simpl.
    rewrite Hmu. simpl. rewrite Hst, Hc. reflexivity.
  - destruct (tsend (tenter t p) p 0) as [[n1 e1] t1] eqn:Hs.
    intros H; inversion H; subst.
    destruct (send_as_thread (mkEncoder (writer enc) true) p p 0 n
                (put_transport w (writer enc) (tenter t p)) (tenter t p) t1 err)
      as [k Hk].
    { eapply lookup_put, Hst. }
    { exact Hs. }
    exists (2 + (k + 1)). simpl. unfold sched_step at 1. simpl. rewrite Hmu.
    unfold sched_step at 1. simpl. rewrite Hst, Hc.
    rewrite repeat_app, exec_app, Hk. simpl. rewrite put_put. reflexivity.
Qed.

Section DecodeThread.
Context `{Codec}.

(** A reader that runs alone does what [Decode] does. *)
Lemma Decode_as_thread (dec dec' : Decoder) (w w' : World)
      (m : option Message) (err : option error) :
  Decode dec w = Ret ((m, err), dec', w') ->
  exec dstep [0; 0; 0; 0] [DLock] (dec, w) = Some ([DDone m err], (dec', w')).
Proof.
  unfold Decode. destruct (dmu dec) eqn:Hmu; [discriminate|]. simpl.
  destruct (store w !! rd (reader dec)) as [t|] eqn:Hst; [|discriminate].
  destruct (ReadString (reader dec) t) as [s e r t'|] eqn:HR; [|discriminate].
  unfold sched_step. simpl. rewrite Hmu. simpl. rewrite Hst, HR. simpl.
  destruct e; intros E; inversion E; subst; reflexivity.
Qed.
End DecodeThread.

(** * Further properties *)

(** ** More on Decode *)

Lemma IndexByte_app (l r : list byte) (c : byte) :
  ~ In c l -> IndexByte (l ++ c :: r) c = Some (length l).
Proof.
  induction l as [|x l IH]; intros Hn; simpl.
  - rewrite (Byte.byte_dec_lb (x:=c) (y:=c) eq_refl). reflexivity.
  - destruct (Byte.eqb x c) eqn:E.
    + apply Byte.byte_dec_bl in E. exfalso. apply Hn. left. exact E.
    + rewrite IH; [reflexivity|]. intros Hin. apply Hn. right. exact Hin.
Qed.

Lemma split_at_delim (l r : list byte) (c : byte) :
  firstn (S (length l)) (l ++ c :: r) = l ++ [c] /\
  skipn (S (length l)) (l ++ c :: r) = r.
Proof.
  induction l as [|x l [IH1 IH2]]; simpl; [auto|].
  split; [f_equal; exact IH1|exact IH2].
Qed.

Lemma rounds_S (t : Transport) : rounds t = S (S (S (2 * weight (incoming t)))).
Proof. unfold rounds. lia. Qed.

(** A frame that is in the buffer is handed out as it is: the transport
    is not read, whatever its state. *)
Lemma ReadString_buffered (b : Reader) (t : Transport) (l rest : list byte) :
  buf b = l ++ delim :: rest ->
  ~ In delim l ->
  ReadString b t = RLine (l ++ [delim]) None (mkReader (rd b) rest (rerr b)) t.
Proof.
  intros Hb Hn. unfold ReadString. rewrite rounds_S, read_loop_S.
  rewrite Hb, (IndexByte_app _ _ _ Hn).
  destruct (split_at_delim l rest delim) as [-> ->]. reflexivity.
Qed.

(** On a closed transport a reader without a frame in its buffer gives
    up what it has buffered and reports the closed transport. *)
Lemma ReadString_closed_partial (b : Reader) (t : Transport) :
  closed t = true ->
  rerr b = None ->
  ~ In delim (buf b) ->
  ReadString b t = RLine (buf b) (Some ErrClosed) (mkReader (rd b) [] None) t.
Proof.
  intros Hc He Hn. apply IndexByte_None in Hn.
  unfold ReadString. rewrite rounds_S, read_loop_S, Hn, He.
  destruct (defaultBufSize <=? length (buf b)) eqn:Hfull.
  - rewrite read_loop_S. simpl IndexByte. simpl rerr. cbv iota.
    simpl buf. rewrite empty_buffer_not_full.
    rewrite fill_is_loop, fill_loop_S. unfold tread. rewrite Hc. cbv zeta iota.
    rewrite read_loop_S. simpl. rewrite app_nil_r. reflexivity.
  - rewrite fill_is_loop, fill_loop_S. unfold tread. rewrite Hc. cbv zeta iota.
    rewrite read_loop_S. simpl. rewrite app_nil_r, Hn. reflexivity.
Qed.

(** What a fill leaves of the script behind its first error. *)
Lemma fill_after_error (b b' : Reader) (t t' : Transport) :
  rerr b = None ->
  length (buf b) < defaultBufSize ->
  prompt t ->
  fill b t = Some (b', t') ->
  closed t' = closed t /\
  (closed t = true -> incoming t' = incoming t /\ rerr b' <> None) /\
  (closed t = false ->
   match rerr b' with
   | Some _ => incoming t' = after_error (incoming t)
   | None => after_error (incoming t') = after_error (incoming t)
   end).
Proof.
  intros He Hlen Hp. rewrite fill_is_loop, fill_loop_S.
  unfold tread. destruct (closed t) eqn:Hc.
  { cbv zeta. intros H; inversion H; subst. simpl.
    split; [exact Hc|]. split; [|discriminate]. intros _. split; [reflexivity|discriminate]. }
  unfold prompt in Hp.
  destruct (incoming t) as [|[cs ce] rest] eqn:Hi.
  { destruct (eos t) as [e0|]; [|discriminate].
    cbv zeta. intros H; inversion H; subst. simpl.
    split; [exact Hc|]. split; [discriminate|]. intros _. exact Hi. }
  inversion Hp as [|? ? Hc0 Hrest]; subst.
  destruct (length cs <=? defaultBufSize - length (buf b)) eqn:Hcap; cbv zeta.
  - destruct ce as [e0|].
    + intros H; inversion H; subst. simpl.
      split; [exact Hc|]. split; [discriminate|]. reflexivity.
    + destruct cs as [|c cs]; [discriminate Hc0|].
      change (0 <? length (c :: cs)) with true. cbv iota.
      intros H; inversion H; subst. simpl. rewrite He.
      split; [exact Hc|]. split; [discriminate|]. reflexivity.
  - apply Nat.leb_gt in Hcap.
    assert (Hn : (0 <? length (firstn (defaultBufSize - length (buf b)) cs)) = true).
    { apply Nat.ltb_lt. rewrite length_firstn. lia. }
    rewrite Hn. intros H; inversion H; subst. simpl. rewrite He.
    split; [exact Hc|]. split; [discriminate|]. intros _. destruct ce; reflexivity.
Qed.

(** Once the loop has reported an error, the script stands right behind
    the read that failed. *)
Lemma read_loop_after_error (fuel : nat) (acc : list byte) (b : Reader) (t : Transport) :
  prompt t ->
  match read_loop fuel acc b t with
  | Some (RLine _ (Some _) _ t') =>
      incoming t' =
      match rerr b with
      | Some _ => incoming t
      | None => if closed t then incoming t else after_error (incoming t)
      end
  | _ => True
  end.
Proof.
  revert acc b t. induction fuel as [|fuel IH]; intros acc b t Hp; [exact I|].
  rewrite read_loop_S.
  destruct (IndexByte (buf b) delim) as [i|]; [exact I|].
  destruct (rerr b) as [e0|] eqn:He; [reflexivity|].
  destruct (defaultBufSize <=? length (buf b)) eqn:Hfull.
  - exact (IH (acc ++ buf b) (mkReader (rd b) [] None) t Hp).
  - apply Nat.leb_gt in Hfull.
    destruct (fill b t) as [[b1 t1]|] eqn:Hf; [|exact I].
    destruct (fill_prompt _ _ _ _ He Hfull Hp Hf) as [_ Hp1].
    destruct (fill_after_error _ _ _ _ He Hfull Hp Hf) as (C1 & C2 & C3).
    specialize (IH acc b1 t1 Hp1).
    destruct (read_loop fuel acc b1 t1) as [[s [e1|] b' t'|]|]; try exact I.
    rewrite IH, C1. destruct (closed t) eqn:Hc.
    + destruct (C2 eq_refl) as [C4 C5]. destruct (rerr b1); [exact C4|congruence].
    + specialize (C3 eq_refl). destruct (rerr b1); exact C3.
Qed.

(** A line handed out leaves the error the reader will meet as it was. *)
Lemma read_loop_keeps_error (fuel : nat) (acc : list byte) (b : Reader) (t : Transport) :
  prompt t ->
  match read_loop fuel acc b t with
  | Some (RLine _ None b' t') => next_error b' t' = next_error b t
  | _ => True
  end.
Proof.
  revert acc b t. induction fuel as [|fuel IH]; intros acc b t Hp; [exact I|].
  rewrite read_loop_S.
  destruct (IndexByte (buf b) delim) as [i|]; [reflexivity|].
  destruct (rerr b) as [e0|] eqn:He; [exact I|].
  destruct (defaultBufSize <=? length (buf b)) eqn:Hfull.
  - specialize (IH (acc ++ buf b) (mkReader (rd b) [] None) t Hp).
    destruct (read_loop fuel (acc ++ buf b) (mkReader (rd b) [] None) t)
      as [[s [e1|] b' t'|]|]; try exact I.
    rewrite IH. unfold next_error. simpl. rewrite He. reflexivity.
  - apply Nat.leb_gt in Hfull.
    destruct (fill b t) as [[b1 t1]|] eqn:Hf; [|exact I].
    destruct (fill_prompt _ _ _ _ He Hfull Hp Hf) as [_ Hp1].
    specialize (IH acc b1 t1 Hp1).
    destruct (read_loop fuel acc b1 t1) as [[s [e1|] b' t'|]|]; try exact I.
    rewrite IH. apply (fill_prompt_error _ _ _ _ He Hfull Hp Hf).
Qed.

Lemma ReadString_keeps_error (b b' : Reader) (t t' : Transport) (s : list byte) :
  prompt t ->
  ReadString b t = RLine s None b' t' ->
  next_error b' t' = next_error b t.
Proof.
  intros Hp HR. pose proof (read_loop_keeps_error (rounds t) [] b t Hp) as H.
  rewrite ReadString_loop, HR in H. exact H.
Qed.

Section MoreDecoding.
Context `{Codec}.

Lemma decode_n_snoc (n : nat) (dec d1 d2 : Decoder) (w w1 w2 : World)
      (rs : list (option Message * option error)) (r : option Message * option error) :
  decode_n n dec w = Ret (rs, d1, w1) ->
  Decode d1 w1 = Ret (r, d2, w2) ->
  decode_n (S n) dec w = Ret (rs ++ [r], d2, w2).
Proof.
  revert dec w rs. induction n as [|n IH]; intros dec w rs Hn Hd.
  - simpl in Hn. inversion Hn; subst. simpl. rewrite Hd. reflexivity.
  - change (decode_n (S n) dec w) with
      (match Decode dec w with
       | Ret (r, dec, w) =>
           match decode_n n dec w with
           | Ret (rs, dec, w) => Ret (r :: rs, dec, w)
           | Block => Block
           | Panic => Panic
           end
       | Block => Block
       | Panic => Panic
       end) in Hn.
    change (decode_n (S (S n)) dec w) with
      (match Decode dec w with
       | Ret (r, dec, w) =>
           match decode_n (S n) dec w with
           | Ret (rs, dec, w) => Ret (r :: rs, dec, w)
           | Block => Block
           | Panic => Panic
           end
       | Block => Block
       | Panic => Panic
       end).
    destruct (Decode dec w) as [[[r0 d0] w0]| |]; try discriminate.
    destruct (decode_n n d0 w0) as [[[rs0 d3] w3]| |] eqn:E; try discriminate.
    inversion Hn; subst. rewrite (IH _ _ _ E Hd). reflexivity.
Qed.

Lemma decode_n_snoc_block (n : nat) (dec d1 : Decoder) (w w1 : World)
      (rs : list (option Message * option error)) :
  decode_n n dec w = Ret (rs, d1, w1) ->
  Decode d1 w1 = Block ->
  decode_n (S n) dec w = Block.
Proof.
  revert dec w rs. induction n as [|n IH]; intros dec w rs Hn Hd.
  - simpl in Hn. inversion Hn; subst. simpl. rewrite Hd. reflexivity.
  - change (decode_n (S n) dec w) with
      (match Decode dec w with
       | Ret (r, dec, w) =>
           match decode_n n dec w with
           | Ret (rs, dec, w) => Ret (r :: rs, dec, w)
           | Block => Block
           | Panic => Panic
           end
       | Block => Block
       | Panic => Panic
       end) in Hn.
    change (decode_n (S (S n)) dec w) with
      (match Decode dec w with
       | Ret (r, dec, w) =>
           match decode_n (S n) dec w with
           | Ret (rs, dec, w) => Ret (r :: rs, dec, w)
           | Block => Block
           | Panic => Panic
           end
       | Block => Block
       | Panic => Panic
       end).
    destruct (Decode dec w) as [[[r0 d0] w0]| |]; try discriminate.
    destruct (decode_n n d0 w0) as [[[rs0 d3] w3]| |] eqn:E; try discriminate.
    inversion Hn; subst. rewrite (IH _ _ _ E Hd). reflexivity.
Qed.

(** The frames that are available come out one per call; the error the
    reader will meet is still ahead of it afterwards. *)
Lemma decode_frames (lines : list (list byte)) (extra : list byte)
      (dec : Decoder) (w : World) (t : Transport) :
  dmu dec = false ->
  reads_from dec w t ->
  prompt t ->
  Forall frame lines ->
  avail (reader dec) t = concat lines ++ extra ->
  exists dec' t',
    decode_n (length lines) dec w =
      Ret (map (fun l => (Some (ParseMessage l), None)) lines, dec',
           put_transport w (rd (reader dec)) t') /\
    dmu dec' = false /\
    rd (reader dec') = rd (reader dec) /\
    reads_from dec' (put_transport w (rd (reader dec)) t') t' /\
    avail (reader dec') t' = extra /\ prompt t' /\
    next_error (reader dec') t' = next_error (reader dec) t.
Proof.
  revert dec w t. induction lines as [|l lines IH]; intros dec w t Hmu Hl Hp Hf Ha.
  - exists dec, t. simpl. rewrite (put_same w _ t Hl). auto 10.
  - inversion Hf as [|? ? (body & -> & Hb) Hf']; subst.
    simpl in Ha. rewrite <- !app_assoc in Ha. simpl in Ha.
    destruct (ReadString_frame _ _ _ _ Hp Ha Hb) as (r & t1 & HR & R1 & F1 & A1 & P1).
    pose proof (ReadString_keeps_error _ _ _ _ _ Hp HR) as E1.
    pose proof (Decode_unfold dec w t Hmu Hl) as HD. rewrite HR, R1 in HD.
    assert (Hl1 : reads_from (mkDecoder r (body ++ [delim]) false)
                             (put_transport w (rd (reader dec)) t1) t1).
    { unfold reads_from. simpl. rewrite R1. eapply lookup_put, Hl. }
    destruct (IH (mkDecoder r (body ++ [delim]) false) _ t1 eq_refl Hl1 P1 Hf' A1)
      as (d2 & t2 & HN & M2 & R2 & L2 & A2 & P2 & E2).
    simpl in R2, HN, L2, E2. rewrite R1 in R2, HN, L2. rewrite put_put in HN, L2.
    exists d2, t2. simpl. rewrite HD, HN.
    split; [reflexivity|]. repeat split; auto. congruence.
Qed.

(** X1. When a prompt transport has [N] frames available and behind them
    neither a delimiter nor an error, the first [N] calls of [Decode]
    return the frames and the call after them does not return: it waits
    for more input. *)
Theorem Decode_frames_then_waits
        (lines : list (list byte)) (extra : list byte)
        (dec : Decoder) (w : World) (t : Transport) :
  dmu dec = false ->
  reads_from dec w t ->
  prompt t ->
  Forall frame lines ->
  avail (reader dec) t = concat lines ++ extra ->
  ~ In delim extra ->
  next_error (reader dec) t = None ->
  (exists dec' w',
      decode_n (length lines) dec w =
        Ret (map (fun l => (Some (ParseMessage l), None)) lines, dec', w')) /\
  decode_n (S (length lines)) dec w = Block.
Proof.
  intros Hmu Hl Hp Hf Ha Hx Hn.
  destruct (decode_frames lines extra dec w t Hmu Hl Hp Hf Ha)
    as (d1 & t1 & HN & M1 & R1 & L1 & A1 & P1 & E1).
  split; [eauto|].
  apply (decode_n_snoc_block _ _ _ _ _ _ HN).
  apply (Decode_waits d1 _ t1 M1 L1 P1); [rewrite A1; exact Hx|congruence].
Qed.

(** X2. When a prompt transport has [N] frames available and behind them
    an error before any further delimiter, the first [N] calls of
    [Decode] return the frames and only the call after them returns the
    error: an error that arrives with or after data is held back until
    the frames before it are delivered.  The bytes behind the last frame
    are dropped with the error. *)
Theorem Decode_frames_then_error
        (lines : list (list byte)) (extra : list byte)
        (dec : Decoder) (w : World) (t : Transport) (e : error) :
  dmu dec = false ->
  reads_from dec w t ->
  prompt t ->
  Forall frame lines ->
  avail (reader dec) t = concat lines ++ extra ->
  ~ In delim extra ->
  next_error (reader dec) t = Some e ->
  exists dec' w',
    decode_n (S (length lines)) dec w =
      Ret (map (fun l => (Some (ParseMessage l), None)) lines ++ [(None, Some e)],
           dec', w') /\
    line dec' = extra /\ buf (reader dec') = [] /\ rerr (reader dec') = None /\
    dmu dec' = false.
Proof.
  intros Hmu Hl Hp Hf Ha Hx Hn.
  destruct (decode_frames lines extra dec w t Hmu Hl Hp Hf Ha)
    as (d1 & t1 & HN & M1 & R1 & L1 & A1 & P1 & E1).
  rewrite <- A1 in Hx. rewrite <- E1 in Hn.
  destruct (ReadString_partial _ _ _ P1 Hx Hn) as (r & t2 & HR & _ & _ & B2 & E2 & _).
  pose proof (Decode_unfold d1 _ t1 M1 L1) as HD. rewrite HR in HD.
  eexists _, _. split; [apply (decode_n_snoc _ _ _ _ _ _ _ _ _ HN HD)|].
  simpl. auto.
Qed.

(** X3. A read error costs the partial line before it and nothing else.
    On an open, prompt transport whose script reports an error before
    any delimiter, the call of [Decode] that meets the error returns it,
    and the calls after it return the frames that the script delivers
    behind the failed read: the error is reported once and the decoder
    goes on reading. *)
Theorem Decode_resumes_after_error
        (lines : list (list byte)) (extra : list byte)
        (dec : Decoder) (w : World) (t : Transport) (e : error) :
  dmu dec = false ->
  reads_from dec w t ->
  prompt t ->
  rerr (reader dec) = None ->
  closed t = false ->
  ~ In delim (avail (reader dec) t) ->
  next_error (reader dec) t = Some e ->
  Forall frame lines ->
  clean (after_error (incoming t)) = concat lines ++ extra ->
  exists dec' t',
    decode_n (S (length lines)) dec w =
      Ret ((None, Some e) :: map (fun l => (Some (ParseMessage l), None)) lines,
           dec', put_transport w (rd (reader dec)) t') /\
    avail (reader dec') t' = extra /\ dmu dec' = false.
Proof.
  intros Hmu Hl Hp He Hc Ha Hn Hf Hrest.
  destruct (ReadString_partial _ _ _ Hp Ha Hn) as (r & t1 & HR & R1 & F1 & B1 & E1 & P1).
  pose proof (read_loop_after_error (rounds t) [] (reader dec) t Hp) as HA.
  rewrite ReadString_loop, HR, He, Hc in HA.
  pose proof (Decode_unfold dec w t Hmu Hl) as HD. rewrite HR, R1 in HD.
  assert (Hc1 : closed t1 = false) by (rewrite F1; exact Hc).
  assert (Hl1 : reads_from (mkDecoder r (avail (reader dec) t) false)
                           (put_transport w (rd (reader dec)) t1) t1).
  { unfold reads_from. simpl. rewrite R1. eapply lookup_put, Hl. }
  assert (Ha1 : avail (reader (mkDecoder r (avail (reader dec) t) false)) t1 =
                concat lines ++ extra).
  { unfold avail. simpl. rewrite B1, E1, Hc1, HA. exact Hrest. }
  destruct (decode_frames lines extra
              (mkDecoder r (avail (reader dec) t) false) _ t1 eq_refl Hl1 P1 Hf Ha1)
    as (d2 & t2 & HN & M2 & R2 & L2 & A2 & P2 & E2).
  simpl in HN. rewrite R1, put_put in HN.
  exists d2, t2.
  change (decode_n (S (length lines)) dec w) with
    (match Decode dec w with
     | Ret (r, dec, w) =>
         match decode_n (length lines) dec w with
         | Ret (rs, dec, w) => Ret (r :: rs, dec, w)
         | Block => Block
         | Panic => Panic
         end
     | Block => Block
     | Panic => Panic
     end).
  rewrite HD, HN. auto.
Qed.

(** X4. A call of [Decode] that finds a frame in the buffer returns it
    without reading the transport: the world is left exactly as it was,
    whether the transport is open, closed, silent or about to fail, and
    an error the reader has pending stays pending. *)
Theorem Decode_from_buffer
        (dec : Decoder) (w : World) (t : Transport) (l rest : list byte) :
  dmu dec = false ->
  reads_from dec w t ->
  buf (reader dec) = l ++ delim :: rest ->
  ~ In delim l ->
  Decode dec w =
    Ret ((Some (ParseMessage (l ++ [delim])), None),
         mkDecoder (mkReader (rd (reader dec)) rest (rerr (reader dec)))
                   (l ++ [delim]) false,
         w).
Proof.
  intros Hmu Hl Hb Hn.
  rewrite (Decode_unfold dec w t Hmu Hl), (ReadString_buffered _ t _ _ Hb Hn).
  simpl. rewrite (put_same _ _ _ Hl). reflexivity.
Qed.

(** X5. Closing the transport does not take away what the decoder has
    buffered.  With [N] frames in the buffer of a decoder whose
    transport is closed, [N] calls of [Decode] still return the frames;
    the call after them returns the closed-transport error and drops
    the partial line that was left.  The world is not changed by any of
    these calls. *)
Theorem Decode_after_close
        (lines : list (list byte)) (extra : list byte)
        (dec : Decoder) (w : World) (t : Transport) :
  dmu dec = false ->
  reads_from dec w t ->
  closed t = true ->
  rerr (reader dec) = None ->
  Forall frame lines ->
  buf (reader dec) = concat lines ++ extra ->
  ~ In delim extra ->
  exists dec',
    decode_n (S (length lines)) dec w =
      Ret (map (fun l => (Some (ParseMessage l), None)) lines
             ++ [(None, Some ErrClosed)], dec', w) /\
    line dec' = extra /\ buf (reader dec') = [] /\ dmu dec' = false.
Proof.
  intros Hmu Hl Hc He Hf Hb Hx.
  assert (Hpre : exists d1,
             decode_n (length lines) dec w =
               Ret (map (fun l => (Some (ParseMessage l), None)) lines, d1, w) /\
             dmu d1 = false /\ reads_from d1 w t /\
             rerr (reader d1) = None /\ buf (reader d1) = extra).
  { clear Hx. revert dec Hmu Hl He Hb.
    induction lines as [|l lines IH]; intros dec Hmu Hl He Hb.
    - exists dec. simpl. auto.
    - inversion Hf as [|? ? (body & -> & Hn) Hf']; subst.
      simpl in Hb. rewrite <- !app_assoc in Hb. simpl in Hb.
      pose proof (Decode_unfold dec w t Hmu Hl) as HD.
      rewrite (ReadString_buffered _ t _ _ Hb Hn) in HD. simpl in HD.
      rewrite (put_same _ _ _ Hl) in HD.
      destruct (IH Hf' (mkDecoder (mkReader (rd (reader dec)) (concat lines ++ extra)
                                            (rerr (reader dec)))
                                  (body ++ [delim]) false))
        as (d1 & HN & D1); auto.
      exists d1. split; [|exact D1]. simpl. rewrite HD, HN. reflexivity. }
  destruct Hpre as (d1 & HN & M1 & L1 & E1 & B1).
  pose proof (Decode_unfold d1 w t M1 L1) as HD.
  rewrite (ReadString_closed_partial _ t Hc E1) in HD by (rewrite B1; exact Hx).
  simpl in HD. rewrite (put_same _ _ _ L1) in HD.
  eexists. split; [apply (decode_n_snoc _ _ _ _ _ _ _ _ _ HN HD)|].
  simpl. auto.
Qed.
End MoreDecoding.

(** ** More on Encode and Write *)

(** With room for all of it, the transport takes a payload whole. *)
Lemma tsend_all (p : list byte) (t : Transport) (n : nat) :
  has_room t (length p) ->
  exists t',
    tsend t p n = (n + length p, None, t') /\
    outgoing t' = outgoing t ++ p /\ writes t' = writes t /\
    closes t' = closes t /\ incoming t' = incoming t /\ eos t' = eos t /\
    room t' = option_map (fun k => k - length p) (room t).
Proof.
  revert t n. induction p as [|x p IH]; intros t n Hr; simpl.
  - exists t. rewrite Nat.add_0_r, app_nil_r.
    repeat split; auto. destruct (room t); simpl; [f_equal; lia|reflexivity].
  - unfold has_room in Hr. unfold tput. destruct (room t) as [[|k]|] eqn:Hk.
    + simpl in Hr. lia.
    + destruct (IH (mkTransport (incoming t) (eos t) (outgoing t ++ [x]) (writes t)
                                (Some k) (closes t)) (S n))
        as (t' & H1 & H2 & H3 & H4 & H5 & H6 & H7).
      { unfold has_room. simpl in *. lia. }
      exists t'. split; [rewrite H1; f_equal; f_equal; lia|].
      rewrite H2, H7. simpl. rewrite <- app_assoc. simpl. repeat split; auto.
    + destruct (IH (mkTransport (incoming t) (eos t) (outgoing t ++ [x]) (writes t)
                                None (closes t)) (S n))
        as (t' & H1 & H2 & H3 & H4 & H5 & H6 & H7).
      { exact I. }
      exists t'. split; [rewrite H1; f_equal; f_equal; lia|].
      rewrite H2, H7. simpl. rewrite <- app_assoc. simpl. repeat split; auto.
Qed.


Section MoreEncoding.
Context `{Codec}.

(** On an open transport with room, a list of messages goes out whole,
    one after the other. *)
Lemma encode_all_sends (ms : list Message) (enc : Encoder) (w : World) (t : Transport) :
  emu enc = false ->
  store w !! writer enc = Some t ->
  closed t = false ->
  has_room t (length (concat (map Bytes ms))) ->
  exists t',
    encode_all ms enc w =
      Ret (map (fun _ => None) ms, enc, put_transport w (writer enc) t') /\
    outgoing t' = outgoing t ++ concat (map Bytes ms) /\
    writes t' = writes t ++ map Bytes ms /\
    incoming t' = incoming t /\ closes t' = closes t.
Proof.
  revert w t. induction ms as [|m ms IH]; intros w t Hmu Hst Hc Hr.
  - exists t. simpl. rewrite !app_nil_r, (put_same _ _ _ Hst). auto.
  - simpl in Hr. rewrite length_app in Hr.
    assert (Hr1 : has_room (tenter t (Bytes m)) (length (Bytes m))).
    { unfold has_room in *. simpl. destruct (room t); [lia|exact I]. }
    destruct (tsend_all (Bytes m) (tenter t (Bytes m)) 0 Hr1)
      as (t1 & S1 & O1 & W1 & C1 & I1 & E1 & R1).
    pose proof (Write_unfold enc (Bytes m) w t Hmu Hst) as HW.
    unfold twrite in HW. change (closed (tenter t (Bytes m))) with (closed t) in HW.
    rewrite Hc, S1 in HW. simpl in HW.
    assert (Hst1 : store (put_transport w (writer enc) t1) !! writer enc = Some t1)
      by (eapply lookup_put, Hst).
    assert (Hc1 : closed t1 = false).
    { unfold closed in *. rewrite C1. exact Hc. }
    assert (Hr2 : has_room t1 (length (concat (map Bytes ms)))).
    { unfold has_room in *. rewrite R1. simpl. destruct (room t); simpl; [lia|exact I]. }
    destruct (IH _ t1 Hmu Hst1 Hc1 Hr2) as (t2 & HN & O2 & W2 & I2 & C2).
    exists t2. simpl. unfold Encode. rewrite HW, HN, put_put.
    split; [reflexivity|]. rewrite O2, O1, W2, W1, I2, I1, C2, C1. simpl.
    rewrite <- !app_assoc. auto.
Qed.

(** X6. Round trip.  A list of messages is encoded at one end of a wire,
    on an open transport with room for them.  Every call returns no
    error and the bytes put on the wire are the serializations, one
    after the other.  If each serialization is a frame and the codec
    parses what it serializes, then a decoder at the other end, to which
    a prompt transport makes these bytes available, returns the
    messages, one per call and in the order they were encoded. *)
Theorem Encode_Decode_round_trip
        (ms : list Message) (enc : Encoder) (w : World) (t : Transport)
        (dec : Decoder) (w2 : World) (t2 : Transport) :
  emu enc = false ->
  store w !! writer enc = Some t ->
  closed t = false ->
  has_room t (length (concat (map Bytes ms))) ->
  Forall (fun m => frame (Bytes m)) ms ->
  Forall (fun m => ParseMessage (Bytes m) = m) ms ->
  dmu dec = false ->
  reads_from dec w2 t2 ->
  prompt t2 ->
  exists t',
    encode_all ms enc w =
      Ret (map (fun _ => None) ms, enc, put_transport w (writer enc) t') /\
    outgoing t' = outgoing t ++ concat (map Bytes ms) /\
    (avail (reader dec) t2 = skipn (length (outgoing t)) (outgoing t') ->
     exists dec' w2',
       decode_n (length ms) dec w2 =
         Ret (map (fun m => (Some m, None)) ms, dec', w2')).
Proof.
  intros Hmu Hst Hc Hr Hfr Hrt Hdm Hl Hp.
  destruct (encode_all_sends ms enc w t Hmu Hst Hc Hr) as (t' & HE & HO & _).
  exists t'. split; [exact HE|]. split; [exact HO|].
  rewrite HO, skipn_app, skipn_all, Nat.sub_diag. simpl. intros Ha.
  assert (Hf : Forall frame (map Bytes ms)).
  { apply Forall_map. exact Hfr. }
  rewrite <- (app_nil_r (concat (map Bytes ms))) in Ha.
  destruct (decode_frames (map Bytes ms) [] dec w2 t2 Hdm Hl Hp Hf Ha)
    as (d1 & t1 & HN & _).
  rewrite length_map, map_map in HN. exists d1, (put_transport w2 (rd (reader dec)) t1).
  rewrite HN. f_equal. f_equal. f_equal.
  apply map_ext_in. intros m Hm. rewrite Forall_forall in Hrt.
  rewrite (Hrt m); [reflexivity|]. apply list_elem_of_In. exact Hm.
Qed.

End MoreEncoding.

(** ** Reading and writing side by side *)

Lemma tread_set_wire (t : Transport) (cap : nat) o ws r :
  tread (set_wire t o ws r) cap =
  match tread t cap with
  | None => None
  | Some (bs, e, t') => Some (bs, e, set_wire t' o ws r)
  end.
Proof.
  unfold tread. change (closed (set_wire t o ws r)) with (closed t).
  destruct (closed t); [reflexivity|]. simpl.
  destruct (incoming t) as [|[cs ce] rest]; [destruct (eos t); reflexivity|].
  destruct (length cs <=? cap); reflexivity.
Qed.

Lemma fill_loop_set_wire (i : nat) (b : Reader) (t : Transport) o ws r :
  fill_loop i b (set_wire t o ws r) =
  match fill_loop i b t with
  | None => None
  | Some (b', t') => Some (b', set_wire t' o ws r)
  end.
Proof.
  revert b t. induction i as [|i IH]; intros b t; [reflexivity|].
  rewrite !fill_loop_S, tread_set_wire.
  destruct (tread t (defaultBufSize - length (buf b))) as [[[bs e] t1]|]; [|reflexivity].
  cbv zeta. destruct e; [reflexivity|].
  destruct (0 <? length bs); [reflexivity|]. apply IH.
Qed.

Lemma fill_set_wire (b : Reader) (t : Transport) o ws r :
  fill b (set_wire t o ws r) =
  match fill b t with
  | None => None
  | Some (b', t') => Some (b', set_wire t' o ws r)
  end.
Proof.
  rewrite (fill_is_loop b (set_wire t o ws r)), (fill_is_loop b t).
  apply fill_loop_set_wire.
Qed.

Lemma read_loop_set_wire (fuel : nat) (acc : list byte) (b : Reader) (t : Transport)
      o ws r :
  read_loop fuel acc b (set_wire t o ws r) =
  match read_loop fuel acc b t with
  | Some (RLine s e b' t') => Some (RLine s e b' (set_wire t' o ws r))
  | other => other
  end.
Proof.
  revert acc b t. induction fuel as [|fuel IH]; intros acc b t; [reflexivity|].
  rewrite !read_loop_S.
  destruct (IndexByte (buf b) delim); [reflexivity|].
  destruct (rerr b); [reflexivity|].
  destruct (defaultBufSize <=? length (buf b)); [apply IH|].
  rewrite fill_set_wire.
  destruct (fill b t) as [[b1 t1]|]; [apply IH|reflexivity].
Qed.

(** What [ReadString] does depends on the read side of the transport
    only, and it changes the read side only. *)
Lemma ReadString_set_wire (b : Reader) (t : Transport) o ws r :
  ReadString b (set_wire t o ws r) =
  match ReadString b t with
  | RLine s e b' t' => RLine s e b' (set_wire t' o ws r)
  | RBlock => RBlock
  end.
Proof.
  unfold ReadString. change (rounds (set_wire t o ws r)) with (rounds t).
  rewrite read_loop_set_wire.
  destruct (read_loop (rounds t) [] b t) as [[s e b' t'|]|]; reflexivity.
Qed.

Lemma tsend_set_incoming (p : list byte) (t : Transport) (n : nat) i :
  tsend (set_incoming t i) p n =
  (fst (tsend t p n), set_incoming (snd (tsend t p n)) i).
Proof.
  revert t n. induction p as [|x p IH]; intros t n; simpl; [reflexivity|].
  unfold tput. simpl. destruct (room t) as [[|k]|]; simpl; [reflexivity| |];
    rewrite <- IH; reflexivity.
Qed.

(** What the transport's write does depends on the write side only, and
    it changes the write side only. *)
Lemma twrite_set_incoming (p : list byte) (t : Transport) i :
  twrite (set_incoming t i) p =
  (fst (twrite t p), set_incoming (snd (twrite t p)) i).
Proof.
  unfold twrite. change (closed (tenter (set_incoming t i) p)) with (closed (tenter t p)).
  destruct (closed (tenter t p)); [reflexivity|].
  change (tenter (set_incoming t i) p) with (set_incoming (tenter t p) i).
  apply tsend_set_incoming.
Qed.

Lemma twrite_is_set_wire (p : list byte) (t : Transport) :
  snd (twrite t p) =
  set_wire t (outgoing (snd (twrite t p))) (writes (snd (twrite t p)))
           (room (snd (twrite t p))).
Proof.
  destruct (twrite t p) as [[n e] t'] eqn:Hw. simpl.
  apply twrite_frame in Hw. destruct Hw as (_ & _ & C & I & E & _).
  unfold set_wire. rewrite <- C, <- I, <- E. destruct t'; reflexivity.
Qed.

Lemma set_wire_set_incoming (t : Transport) i o ws r :
  set_wire (set_incoming t i) o ws r = set_incoming (set_wire t o ws r) i.
Proof. reflexivity. Qed.

Section SideBySide.
Context `{Codec}.

(** X8. Reading and writing do not disturb each other.  When a [Decode]
    and a [Write] both return from some state, they return the same
    results in either order, and both orders end in the same state: the
    decoder, the encoder and the world.  This holds for a decoder and an
    encoder on one transport, as in a connection, and on two. *)
Theorem Decode_Write_commute
        (dec dec' : Decoder) (enc enc' : Encoder) (p : list byte)
        (w wd ww : World)
        (rd_res : option Message * option error) (wr_res : nat * option error) :
  Decode dec w = Ret (rd_res, dec', wd) ->
  Write enc p w = Ret (wr_res, enc', ww) ->
  exists w3,
    Write enc p wd = Ret (wr_res, enc', w3) /\
    Decode dec ww = Ret (rd_res, dec', w3).
Proof.
  unfold Decode at 1, Write at 1.
  destruct (dmu dec) eqn:Hdm; [discriminate|].
  destruct (emu enc) eqn:Hem; [discriminate|]. simpl.
  destruct (store w !! rd (reader dec)) as [tr|] eqn:Hr; [|discriminate].
  destruct (store w !! writer enc) as [tw|] eqn:Hw; [|discriminate].
  destruct (ReadString (reader dec) tr) as [s e r t1|] eqn:HR; [|discriminate].
  destruct (twrite tw p) as [[n err] t2] eqn:HW.
  pose proof (ReadString_shape _ _ _ _ _ _ HR) as (R1 & R2 & _).
  intros HD HE.
  assert (HD' : rd_res = (match e with
                          | Some e => (None, Some e)
                          | None => (Some (ParseMessage s), None)
                          end) /\
                dec' = mkDecoder r s false /\
                wd = put_transport w (rd (reader dec)) t1).
  { rewrite R1 in HD. destruct e; inversion HD; subst; auto. }
  destruct HD' as (-> & -> & ->). inversion HE; subst wr_res enc' ww. clear HD HE.
  destruct (decide (rd (reader dec) = writer enc)) as [Heq|Hne].
  - rewrite Heq in *. rewrite Hr in Hw. inversion Hw; subst tw. clear Hw.
    exists (put_transport w (writer enc) (set_incoming t2 (incoming t1))).
    split.
    + rewrite (Write_unfold enc p _ t1 Hem) by (eapply lookup_put, Hr).
      rewrite R2, twrite_set_incoming, HW. simpl. rewrite put_put.
      destruct enc; simpl in *; subst; reflexivity.
    + rewrite (Decode_unfold dec _ t2 Hdm)
        by (unfold reads_from; rewrite Heq; eapply lookup_put, Hr).
      pose proof (twrite_is_set_wire p tr) as Hsw. rewrite HW in Hsw. simpl in Hsw.
      rewrite Hsw, ReadString_set_wire, HR, R1, put_put.
      assert (E : set_wire t1 (outgoing t2) (writes t2) (room t2) =
                  set_incoming (set_wire tr (outgoing t2) (writes t2) (room t2))
                               (incoming t1)).
      { rewrite R2 at 1. apply set_wire_set_incoming. }
      rewrite E. destruct e; reflexivity.
  - exists (put_transport (put_transport w (rd (reader dec)) t1) (writer enc) t2).
    split.
    + rewrite (Write_unfold enc p _ tw Hem)
        by (simpl; rewrite list_lookup_insert_ne by exact Hne; exact Hw).
      rewrite HW. simpl. destruct enc; simpl in *; subst; reflexivity.
    + rewrite (Decode_unfold dec _ tr Hdm)
        by (unfold reads_from; simpl;
            rewrite list_lookup_insert_ne by (intros E; apply Hne; symmetry; exact E);
            exact Hr).
      rewrite HR, R1.
      assert (Hsw : put_transport (put_transport w (writer enc) t2) (rd (reader dec)) t1 =
                    put_transport (put_transport w (rd (reader dec)) t1) (writer enc) t2).
      { unfold put_transport, set_store. simpl. f_equal.
        apply list_insert_insert_ne. exact Hne. }
      rewrite Hsw. destruct e; reflexivity.
Qed.
End SideBySide.

(** ** What the calls on a connection leave alone *)

Lemma Write_store (enc enc' : Encoder) (p : list byte) (w w' : World)
      (r : nat * option error) :
  Write enc p w = Ret (r, enc', w') ->
  writer enc' = writer enc /\ exists t', w' = put_transport w (writer enc) t'.
Proof.
  unfold Write. destruct (emu enc); [discriminate|]. simpl.
  destruct (store w !! writer enc) as [t|]; [|discriminate].
  destruct (twrite t p) as [[n err] t']. intros E; inversion E; subst. eauto.
Qed.

Lemma Close_store (c : Conn) (w w' : World) (err : option error) :
  Close c w = Ret (err, w') -> exists t', w' = put_transport w (conn c) t'.
Proof.
  unfold Close. destruct (store w !! conn c) as [t|]; [|discriminate].
  simpl. intros E; inversion E; subst. eauto.
Qed.

Section Isolation.
Context `{Codec}.

Lemma Decode_store (dec dec' : Decoder) (w w' : World)
      (r : option Message * option error) :
  Decode dec w = Ret (r, dec', w') ->
  rd (reader dec') = rd (reader dec) /\
  exists t', w' = put_transport w (rd (reader dec)) t'.
Proof.
  unfold Decode. destruct (dmu dec); [discriminate|]. simpl.
  destruct (store w !! rd (reader dec)) as [t|]; [|discriminate].
  destruct (ReadString (reader dec) t) as [s e r0 t'|] eqn:HR; [|discriminate].
  apply ReadString_shape in HR. destruct HR as (R1 & _).
  rewrite R1. destruct e; intros E; inversion E; subst; simpl; eauto.
Qed.

Lemma do_call_store (k : call) (c c' : Conn) (w w' : World) :
  one_transport c ->
  do_call k c w = Ret (c', w') ->
  one_transport c' /\ conn c' = conn c /\
  exists t', w' = put_transport w (conn c) t'.
Proof.
  intros [Hw Hr]. destruct k as [|m|p|]; simpl.
  - destruct (Decode (decoder c) w) as [[[r d] w1]| |] eqn:E; try discriminate.
    intros E'; inversion E'; subst. apply Decode_store in E.
    destruct E as (R1 & t' & ->). unfold one_transport. simpl.
    rewrite R1, Hr. eauto.
  - unfold Encode.
    destruct (Write (encoder c) (Bytes m) w) as [[[[n err] e] w1]| |] eqn:E;
      try discriminate.
    intros E'; inversion E'; subst. apply Write_store in E.
    destruct E as (R1 & t' & ->). unfold one_transport. simpl.
    rewrite R1, Hw. eauto.
  - destruct (Write (encoder c) p w) as [[[r e] w1]| |] eqn:E; try discriminate.
    intros E'; inversion E'; subst. apply Write_store in E.
    destruct E as (R1 & t' & ->). unfold one_transport. simpl.
    rewrite R1, Hw. eauto.
  - destruct (Close c w) as [[err w1]| |] eqn:E; try discriminate.
    intros E'; inversion E'; subst. apply Close_store in E.
    destruct E as (t' & ->). unfold one_transport. eauto.
Qed.

(** X9. The calls on a connection keep to its transport.  Along every
    sequence of [Decode], [Encode], [Write] and [Close] calls on a
    connection made by [NewConn], the three references stay on the one
    transport; every other transport is left exactly as it was; no
    transport comes into being or disappears; and the network is not
    touched: nothing is dialled. *)
Theorem Calls_keep_to_own_transport (ks : list call) (c c' : Conn) (w w' : World) :
  one_transport c ->
  do_calls ks c w = Ret (c', w') ->
  one_transport c' /\ conn c' = conn c /\
  dialed w' = dialed w /\
  length (store w') = length (store w) /\
  forall l, l <> conn c -> store w' !! l = store w !! l.
Proof.
  revert c w. induction ks as [|k ks IH]; intros c w Hone Hrun; simpl in Hrun.
  - inversion Hrun; subst. auto.
  - destruct (do_call k c w) as [[c1 w1]| |] eqn:E; try discriminate.
    destruct (do_call_store _ _ _ _ _ Hone E) as (Hone1 & C1 & t1 & ->).
    destruct (IH _ _ Hone1 Hrun) as (H1 & H2 & H3 & H4 & H5).
    split; [exact H1|]. split; [congruence|]. split; [exact H3|].
    split; [rewrite H4; simpl; apply length_insert|].
    intros l Hne. rewrite H5 by congruence. simpl.
    apply list_lookup_insert_ne. congruence.
Qed.
End Isolation.

(** ** Writers do not get stuck *)




(** * The theorems at work *)

Ltac no_delim := vm_compute; intuition discriminate.
Ltac is_prompt := unfold prompt; simpl; repeat constructor.

Lemma Decode_in_stream_order_witness :
  exists dec' t',
    @decode_n rawCodec 2 (NewDecoder 0) (world_of [chat]) =
      Ret ([(Some (ln "PING :server"), None); (Some (ln "NICK a"), None)], dec',
           put_transport (world_of [chat]) 0 t') /\
    dmu dec' = false /\
    rd (reader dec') = 0 /\
    t' = set_incoming chat (incoming t') /\
    avail (reader dec') t' = bytes_of "US" /\ prompt t'.
Proof.
  apply (@Decode_in_stream_order rawCodec
           [ln "PING :server"; ln "NICK a"] (bytes_of "US")
           (NewDecoder 0) (world_of [chat]) chat).
  - reflexivity.
  - reflexivity.
  - is_prompt.
  - repeat constructor.
    + exists (bytes_of "PING :server"). split; [reflexivity|no_delim].
    + exists (bytes_of "NICK a"). split; [reflexivity|no_delim].
  - reflexivity.
Defined.


Lemma Decode_drops_partial_line_witness :
  exists dec' t',
    @Decode rawCodec (NewDecoder 0) (world_of [cut_short]) =
      Ret ((None, Some EOF), dec', put_transport (world_of [cut_short]) 0 t') /\
    line dec' = bytes_of "PING :ser" /\
    buf (reader dec') = [] /\ rerr (reader dec') = None /\
    dmu dec' = false /\ t' = set_incoming cut_short (incoming t').
Proof.
  apply (@Decode_drops_partial_line rawCodec
           (NewDecoder 0) (world_of [cut_short]) cut_short EOF).
  - reflexivity.
  - reflexivity.
  - is_prompt.
  - no_delim.
  - reflexivity.
Defined.

Lemma Encode_one_write_witness :
  exists n err t',
    twrite (pipe []) (ln "PING :x") = (n, err, t') /\
    Write (NewEncoder 0) (ln "PING :x") (world_of [pipe []]) =
      Ret ((n, err), NewEncoder 0, put_transport (world_of [pipe []]) 0 t') /\
    @Encode rawCodec (NewEncoder 0) (ln "PING :x") (world_of [pipe []]) =
      Ret (err, NewEncoder 0, put_transport (world_of [pipe []]) 0 t') /\
    writes t' = [] ++ [ln "PING :x"] /\
    outgoing t' = [] ++ firstn n (ln "PING :x") /\
    (err = None -> n = length (ln "PING :x")).
Proof.
  apply (@Encode_one_write rawCodec (NewEncoder 0) (ln "PING :x")
           (world_of [pipe []]) (pipe [])); reflexivity.
Defined.

Lemma Write_empty_witness :
  Write (NewEncoder 0) [] (world_of [closed_pipe]) =
    Ret ((0, Some ErrClosed), NewEncoder 0,
         put_transport (world_of [closed_pipe]) 0 (tenter closed_pipe [])) /\
  outgoing (tenter closed_pipe []) = [] /\
  writes (tenter closed_pipe []) = [] ++ [[]].
Proof.
  apply (Write_empty (NewEncoder 0) (world_of [closed_pipe]) closed_pipe); reflexivity.
Defined.

(** C6, as stated, fails: on a connection that has been closed, [Write]
    with an empty payload does not return success. *)
Lemma Write_empty_after_Close :
  exists w1,
    Close (NewConn 0) (world_of [pipe []]) = Ret (None, w1) /\
    Write (encoder (NewConn 0)) [] w1 =
      Ret ((0, Some ErrClosed), encoder (NewConn 0),
           put_transport w1 0 (tenter closed_pipe [])).
Proof. eexists. split; reflexivity. Qed.

Lemma Close_once_per_call_witness :
  exists c' w',
    @do_calls rawCodec [CallWrite (ln "QUIT"); CallClose; CallDecode]
              (NewConn 0) (world_of [chat]) = Ret (c', w') /\
    conn c' = 0 /\
    close_count w' 0 = close_count (world_of [chat]) 0 + 1 /\
    state_of c' w' = CLOSED.
Proof.
  assert (Hgen : forall c' w',
             @do_calls rawCodec [CallWrite (ln "QUIT"); CallClose; CallDecode]
                       (NewConn 0) (world_of [chat]) = Ret (c', w') ->
             conn c' = 0 /\
             close_count w' 0 = close_count (world_of [chat]) 0 + 1 /\
             state_of c' w' = CLOSED).
  { intros c' w' Hrun.
    destruct (@Close_once_per_call rawCodec _ _ _ _ _ Hrun) as (H1 & H2 & _ & H3 & _).
    split; [exact H1|]. split; [exact H2|]. apply H3. unfold closes_in. simpl. lia. }
  eexists _, _. split; [vm_compute; reflexivity|]. apply Hgen. vm_compute. reflexivity.
Defined.

(** A line longer than the buffer comes back whole. *)
Example Decode_long_line :
  exists dec' w',
    @Decode rawCodec (NewDecoder 0)
            (world_of [pipe [(repeat x61 5000 ++ [delim], None)]]) =
      Ret ((Some (repeat x61 5000 ++ [delim]), None), dec', w').
Proof. eexists _, _. vm_compute. reflexivity. Qed.

(** After the last frame of an open, silent stream [Decode] waits. *)
Example Decode_then_wait :
  @decode_n rawCodec 2 (NewDecoder 0) (world_of [pipe [(ln "PING :server", None)]]) =
    Block.
Proof. vm_compute. reflexivity. Qed.

(** A writer cannot take the mutex while another one holds it. *)
Example Lock_excludes :
  exec wstep [1; 0] (map WLock writers_payloads) (NewEncoder 0, world_of [pipe []]) =
    None.
Proof. reflexivity. Qed.

(** [Dial] against a network with one host. *)
Example Dial_unreachable :
  Dial "irc.example.org:6667" (world_of []) =
    ((None, Some (ErrDial "unreachable")),
     mkWorld [] no_network ["irc.example.org:6667"]).
Proof. reflexivity. Qed.

Example Dial_connected :
  Dial "irc.example.org:6667" (mkWorld [] (one_host "irc.example.org:6667" chat) []) =
    ((Some (NewConn 0), None),
     mkWorld [chat] (one_host "irc.example.org:6667" chat) ["irc.example.org:6667"]).
Proof. reflexivity. Qed.

Lemma NewConn_shares_transport_witness :
  exists e w1 t1,
    Close (NewConn 0) (world_of [chat]) = Ret (e, w1) /\
    store w1 !! 0 = Some t1 /\
    Write (encoder (NewConn 0)) (ln "PING") w1 =
      Ret ((0, Some ErrClosed), encoder (NewConn 0),
           put_transport w1 0 (tenter t1 (ln "PING"))) /\
    @Decode rawCodec (decoder (NewConn 0)) w1 =
      Ret ((None, Some ErrClosed), decoder (NewConn 0), w1).
Proof.
  apply (proj2 (proj2 (proj2 (proj2 (proj2 (@NewConn_shares_transport rawCodec 0)))))
           (world_of [chat]) chat (ln "PING")).
  reflexivity.
Defined.

(** C7, as stated, fails: two calls of [Close] invoke the transport's
    close operation twice. *)
Lemma Close_twice :
  exists c' w',
    @do_calls rawCodec [CallClose; CallClose] (NewConn 0) (world_of [pipe []]) =
      Ret (c', w') /\
    close_count w' (conn c') = 2.
Proof. eexists _, _. split; reflexivity. Qed.


(** C3 fails on the code: [Decode] reads [dec.line] after it has given up
    the mutex.  With two frames in the stream and two goroutines in
    [Decode], the second can overwrite the line of the first before the
    first has parsed it: both return the second frame, and the first
    frame is returned by nobody. *)
Theorem Decode_race :
  exists s,
    exec (@dstep rawCodec) racy_schedule [DLock; DLock]
         (NewDecoder 0, world_of [two_nicks]) =
    Some ([@DDone rawCodec (Some (ln "NICK b")) None;
           @DDone rawCodec (Some (ln "NICK b")) None], s).
Proof. eexists. vm_compute. reflexivity. Qed.


(** ** The further properties at work *)

Ltac is_frame s := exists (bytes_of s); split; [reflexivity|no_delim].

Lemma Decode_frames_then_waits_witness :
  (exists dec' w',
      @decode_n rawCodec 1 (NewDecoder 0) (world_of [quiet]) =
        Ret ([(Some (ln "PING :server"), None)], dec', w')) /\
  @decode_n rawCodec 2 (NewDecoder 0) (world_of [quiet]) = Block.
Proof.
  apply (@Decode_frames_then_waits rawCodec [ln "PING :server"] (bytes_of "NI")
           (NewDecoder 0) (world_of [quiet]) quiet).
  - reflexivity.
  - reflexivity.
  - is_prompt.
  - repeat constructor. is_frame "PING :server".
  - reflexivity.
  - no_delim.
  - reflexivity.
Defined.

Lemma Decode_frames_then_error_witness :
  exists dec' w',
    @decode_n rawCodec 3 (NewDecoder 0) (world_of [chat]) =
      Ret ([(Some (ln "PING :server"), None); (Some (ln "NICK a"), None)]
             ++ [(None, Some EOF)], dec', w') /\
    line dec' = bytes_of "US" /\ buf (reader dec') = [] /\
    rerr (reader dec') = None /\ dmu dec' = false.
Proof.
  apply (@Decode_frames_then_error rawCodec [ln "PING :server"; ln "NICK a"]
           (bytes_of "US") (NewDecoder 0) (world_of [chat]) chat EOF).
  - reflexivity.
  - reflexivity.
  - is_prompt.
  - repeat constructor; [is_frame "PING :server"|is_frame "NICK a"].
  - reflexivity.
  - no_delim.
  - reflexivity.
Defined.

Lemma Decode_resumes_after_error_witness :
  exists dec' t',
    @decode_n rawCodec 2 (NewDecoder 0) (world_of [hiccup]) =
      Ret ([(None, Some (ErrIO 4)); (Some (ln "NICK a"), None)], dec',
           put_transport (world_of [hiccup]) 0 t') /\
    avail (reader dec') t' = [] /\ dmu dec' = false.
Proof.
  apply (@Decode_resumes_after_error rawCodec [ln "NICK a"] []
           (NewDecoder 0) (world_of [hiccup]) hiccup (ErrIO 4)).
  - reflexivity.
  - reflexivity.
  - is_prompt.
  - reflexivity.
  - reflexivity.
  - no_delim.
  - reflexivity.
  - repeat constructor. is_frame "NICK a".
  - reflexivity.
Defined.

Lemma Decode_from_buffer_witness :
  @Decode rawCodec primed (world_of [closed_pipe]) =
    Ret ((Some (bytes_of "PING :server" ++ [delim]), None),
         mkDecoder (mkReader 0 (bytes_of "NI") None)
                   (bytes_of "PING :server" ++ [delim]) false,
         world_of [closed_pipe]).
Proof.
  apply (@Decode_from_buffer rawCodec primed (world_of [closed_pipe]) closed_pipe
           (bytes_of "PING :server") (bytes_of "NI")).
  - reflexivity.
  - reflexivity.
  - reflexivity.
  - no_delim.
Defined.

Lemma Decode_after_close_witness :
  exists dec',
    @decode_n rawCodec 2 primed (world_of [closed_pipe]) =
      Ret ([(Some (ln "PING :server"), None)] ++ [(None, Some ErrClosed)], dec',
           world_of [closed_pipe]) /\
    line dec' = bytes_of "NI" /\ buf (reader dec') = [] /\ dmu dec' = false.
Proof.
  apply (@Decode_after_close rawCodec [ln "PING :server"] (bytes_of "NI")
           primed (world_of [closed_pipe]) closed_pipe).
  - reflexivity.
  - reflexivity.
  - reflexivity.
  - reflexivity.
  - repeat constructor. is_frame "PING :server".
  - reflexivity.
  - no_delim.
Defined.

Lemma Encode_Decode_round_trip_witness :
  exists t',
    @encode_all rawCodec [ln "PING :x"; ln "NICK a"] (NewEncoder 0) (world_of [pipe []]) =
      Ret ([None; None], NewEncoder 0, put_transport (world_of [pipe []]) 0 t') /\
    outgoing t' = [] ++ concat [ln "PING :x"; ln "NICK a"] /\
    (avail (reader (NewDecoder 0)) (pipe [(ln "PING :x" ++ ln "NICK a", None)]) =
       skipn 0 (outgoing t') ->
     exists dec' w2',
       @decode_n rawCodec 2 (NewDecoder 0)
                 (world_of [pipe [(ln "PING :x" ++ ln "NICK a", None)]]) =
         Ret ([(Some (ln "PING :x"), None); (Some (ln "NICK a"), None)], dec', w2')).
Proof.
  apply (@Encode_Decode_round_trip rawCodec [ln "PING :x"; ln "NICK a"]
           (NewEncoder 0) (world_of [pipe []]) (pipe [])
           (NewDecoder 0) (world_of [pipe [(ln "PING :x" ++ ln "NICK a", None)]])
           (pipe [(ln "PING :x" ++ ln "NICK a", None)])).
  - reflexivity.
  - reflexivity.
  - reflexivity.
  - exact I.
  - repeat constructor; [is_frame "PING :x"|is_frame "NICK a"].
  - repeat constructor.
  - reflexivity.
  - reflexivity.
  - is_prompt.
Defined.


Lemma Decode_Write_commute_witness :
  exists rd_res dec' wd wr_res enc' ww,
    @Decode rawCodec (NewDecoder 0) (world_of [chat]) = Ret (rd_res, dec', wd) /\
    Write (NewEncoder 0) (ln "PONG") (world_of [chat]) = Ret (wr_res, enc', ww) /\
    exists w3,
      Write (NewEncoder 0) (ln "PONG") wd = Ret (wr_res, enc', w3) /\
      @Decode rawCodec (NewDecoder 0) ww = Ret (rd_res, dec', w3).
Proof.
  eexists _, _, _, _, _, _.
  split; [vm_compute; reflexivity|]. split; [vm_compute; reflexivity|].
  apply (@Decode_Write_commute rawCodec) with (w := world_of [chat]).
  - vm_compute. reflexivity.
  - vm_compute. reflexivity.
Defined.

Lemma Calls_keep_to_own_transport_witness :
  exists c' w',
    @do_calls rawCodec [CallWrite (ln "QUIT"); CallDecode; CallClose]
              (NewConn 0) (world_of [chat; cut_short]) = Ret (c', w') /\
    one_transport c' /\ conn c' = 0 /\
    dialed w' = [] /\
    length (store w') = 2 /\
    forall l, l <> 0 -> store w' !! l = [chat; cut_short] !! l.
Proof.
  eexists _, _. split; [vm_compute; reflexivity|].
  apply (@Calls_keep_to_own_transport rawCodec
           [CallWrite (ln "QUIT"); CallDecode; CallClose] (NewConn 0) _
           (world_of [chat; cut_short]) _).
  - split; reflexivity.
  - vm_compute. reflexivity.
Defined.

